(** * Snow UI: relay connection management and the debug console

    A shallow embedding of [ui/src/relay.ts] and [ui/src/debug-console.ts],
    together with the ranking and conflict-detection contract of the
    [snow-memory] crate, which the repository only declares. *)

From Stdlib Require Import ZArith NArith QArith List String Ascii Bool Lia.
From Stdlib Require Import Permutation Sorted DecimalString.
From stdpp Require Import base gmap strings list.
Import ListNotations.
Open Scope Z_scope.
Set Warnings "-register-all".

(** ** JavaScript strings

    A JavaScript string is a sequence of UTF-16 code units.  Code units are
    numbers; literals are written [js "..."]. *)

Module Js.

Definition jsstring := list N.

Definition js (s : string) : jsstring :=
  map N_of_ascii (list_ascii_of_string s).

(** [String(n)] and [`${n}`] for an integer-valued number (decimal digits,
    a leading minus sign for negatives). *)
Definition String_of_number (n : Z) : jsstring :=
  js (NilZero.string_of_int (Z.to_int n)).

(** [s.replace(/c/g, by)] for a pattern that is one literal character and a
    replacement text without [$]. *)
Fixpoint replaceAll (c : N) (by_ : jsstring) (s : jsstring) : jsstring :=
  match s with
  | [] => []
  | x :: rest =>
      if N.eqb x c then by_ ++ replaceAll c by_ rest
      else x :: replaceAll c by_ rest
  end.

(** [key.startsWith(p)] *)
Fixpoint startsWith (s p : jsstring) {struct p} : bool :=
  match p with
  | [] => true
  | a :: p' =>
      match s with
      | [] => false
      | b :: s' => N.eqb a b && startsWith s' p'
      end
  end.

(** [a === b] on strings *)
Fixpoint strictEq (a b : jsstring) : bool :=
  match a, b with
  | [], [] => true
  | x :: a', y :: b' => N.eqb x y && strictEq a' b'
  | _, _ => false
  end.

(** [parts.join(sep)] *)
Fixpoint join (sep : jsstring) (parts : list jsstring) : jsstring :=
  match parts with
  | [] => []
  | [p] => p
  | p :: rest => p ++ sep ++ join sep rest
  end.

(** [s.slice(0, n)] *)
Definition slice0 (n : nat) (s : jsstring) : jsstring := firstn n s.

(** White space and line terminators removed by [String.prototype.trim]. *)
Definition isTrimSpace (c : N) : bool :=
  existsb (N.eqb c)
    [9; 10; 11; 12; 13; 32; 160; 5760; 8192; 8193; 8194; 8195; 8196; 8197;
     8198; 8199; 8200; 8201; 8202; 8232; 8233; 8239; 8287; 12288; 65279]%N.

Fixpoint trimStart (s : jsstring) : jsstring :=
  match s with
  | c :: rest => if isTrimSpace c then trimStart rest else s
  | [] => []
  end.

Definition trim (s : jsstring) : jsstring :=
  rev (trimStart (rev (trimStart s))).

(** Largest magnitude of a time value; [new Date(t)] is an invalid date
    beyond it. *)
Definition maxTimeValue : Z := 8640000000000000.

Definition validTime (ms : Z) : bool := Z.abs ms <=? maxTimeValue.

End Js.

Import Js.

(** ** Nostr events (the [Event] type of nostr-tools) *)

Record Event := mkEvent {
  id : jsstring;
  pubkey : jsstring;
  created_at : Z;
  kind : Z;
  tags : list (list jsstring);
  content : jsstring;
  sig : jsstring
}.

(** ** JSON text ([JSON.parse])

    The ECMA-404 grammar, read by recursive descent.  Numbers keep their
    literal text. *)

Module Json.

Inductive json : Type :=
| JNull
| JBool (b : bool)
| JNumber (literal : jsstring)
| JString (s : jsstring)
| JArray (items : list json)
| JObject (members : list (jsstring * json)).

Definition isWs (c : N) : bool :=
  existsb (N.eqb c) [32; 9; 10; 13]%N.

Fixpoint skipWs (s : jsstring) : jsstring :=
  match s with
  | c :: rest => if isWs c then skipWs rest else s
  | [] => []
  end.

Definition isDigit (c : N) : bool := (48 <=? c)%N && (c <=? 57)%N.

Definition hexValue (c : N) : option N :=
  if isDigit c then Some (c - 48)%N
  else if (97 <=? c)%N && (c <=? 102)%N then Some (c - 87)%N
  else if (65 <=? c)%N && (c <=? 70)%N then Some (c - 55)%N
  else None.

Definition hex4 (a b c d : N) : option N :=
  match hexValue a, hexValue b, hexValue c, hexValue d with
  | Some x, Some y, Some z, Some w => Some (((x * 16 + y) * 16 + z) * 16 + w)%N
  | _, _, _, _ => None
  end.

(** The character a two-character escape stands for. *)
Definition simpleEscape (e : N) : option N :=
  match e with
  | 34 => Some 34   (* quote *)
  | 92 => Some 92   (* backslash *)
  | 47 => Some 47   (* slash *)
  | 98 => Some 8    (* b *)
  | 102 => Some 12  (* f *)
  | 110 => Some 10  (* n *)
  | 114 => Some 13  (* r *)
  | 116 => Some 9   (* t *)
  | _ => None
  end%N.

(** The characters of a string after its opening quote, up to and including
    the closing quote. *)
Fixpoint parseChars (s : jsstring) (acc : jsstring) : option (jsstring * jsstring) :=
  match s with
  | [] => None
  | c :: rest =>
      if N.eqb c 34 then Some (rev acc, rest)
      else if N.eqb c 92 then
        match rest with
        | [] => None
        | e :: rest1 =>
            if N.eqb e 117 then
              match rest1 with
              | h1 :: h2 :: h3 :: h4 :: rest2 =>
                  match hex4 h1 h2 h3 h4 with
                  | Some u => parseChars rest2 (u :: acc)
                  | None => None
                  end
              | _ => None
              end
            else
              match simpleEscape e with
              | Some x => parseChars rest1 (x :: acc)
              | None => None
              end
        end
      else if (c <? 32)%N then None
      else parseChars rest (c :: acc)
  end.

Fixpoint takeDigits (s : jsstring) : jsstring * jsstring :=
  match s with
  | c :: rest =>
      if isDigit c then let '(ds, r) := takeDigits rest in (c :: ds, r)
      else ([], s)
  | [] => ([], [])
  end.

Definition parseInt (s : jsstring) : option (jsstring * jsstring) :=
  match s with
  | c :: rest =>
      if N.eqb c 48 then Some ([48%N], rest)
      else if isDigit c then Some (takeDigits s)
      else None
  | [] => None
  end.

Definition parseFrac (s : jsstring) : option (jsstring * jsstring) :=
  match s with
  | 46%N :: rest =>
      match takeDigits rest with
      | ([], _) => None
      | (ds, r) => Some (46%N :: ds, r)
      end
  | _ => Some ([], s)
  end.

Definition parseExp (s : jsstring) : option (jsstring * jsstring) :=
  match s with
  | c :: rest =>
      if N.eqb c 101 || N.eqb c 69 then
        let '(sign, rest1) :=
          match rest with
          | d :: r => if N.eqb d 43 || N.eqb d 45 then ([d], r) else ([], rest)
          | [] => ([], rest)
          end in
        match takeDigits rest1 with
        | ([], _) => None
        | (ds, r) => Some (c :: sign ++ ds, r)
        end
      else Some ([], s)
  | [] => Some ([], s)
  end.

Definition parseNumber (s : jsstring) : option (jsstring * jsstring) :=
  let '(sign, s1) :=
    match s with
    | 45%N :: r => ([45%N], r)
    | _ => ([], s)
    end in
  match parseInt s1 with
  | None => None
  | Some (int, s2) =>
      match parseFrac s2 with
      | None => None
      | Some (frac, s3) =>
          match parseExp s3 with
          | None => None
          | Some (ex, s4) => Some (sign ++ int ++ frac ++ ex, s4)
          end
      end
  end.

Definition dropPrefix (p s : jsstring) : option jsstring :=
  if startsWith s p then Some (skipn (length p) s) else None.

Fixpoint parseValue (fuel : nat) (s : jsstring) : option (json * jsstring) :=
  match fuel with
  | O => None
  | S f =>
      match skipWs s with
      | [] => None
      | c :: rest =>
          if N.eqb c 34 then
            match parseChars rest [] with
            | Some (str, r) => Some (JString str, r)
            | None => None
            end
          else if N.eqb c 91 then
            match skipWs rest with
            | 93%N :: r => Some (JArray [], r)
            | _ =>
                match parseElements f rest with
                | Some (vs, r) => Some (JArray vs, r)
                | None => None
                end
            end
          else if N.eqb c 123 then
            match skipWs rest with
            | 125%N :: r => Some (JObject [], r)
            | _ =>
                match parseMembers f rest with
                | Some (ms, r) => Some (JObject ms, r)
                | None => None
                end
            end
          else if N.eqb c 116 then
            option_map (pair (JBool true)) (dropPrefix (js "true") (c :: rest))
          else if N.eqb c 102 then
            option_map (pair (JBool false)) (dropPrefix (js "false") (c :: rest))
          else if N.eqb c 110 then
            option_map (pair JNull) (dropPrefix (js "null") (c :: rest))
          else
            match parseNumber (c :: rest) with
            | Some (lit, r) => Some (JNumber lit, r)
            | None => None
            end
      end
  end
with parseElements (fuel : nat) (s : jsstring) : option (list json * jsstring) :=
  match fuel with
  | O => None
  | S f =>
      match parseValue f s with
      | None => None
      | Some (v, r) =>
          match skipWs r with
          | 44%N :: r1 =>
              match parseElements f r1 with
              | Some (vs, r2) => Some (v :: vs, r2)
              | None => None
              end
          | 93%N :: r1 => Some ([v], r1)
          | _ => None
          end
      end
  end
with parseMembers (fuel : nat) (s : jsstring) : option (list (jsstring * json) * jsstring) :=
  match fuel with
  | O => None
  | S f =>
      match skipWs s with
      | 34%N :: r =>
          match parseChars r [] with
          | None => None
          | Some (key, r1) =>
              match skipWs r1 with
              | 58%N :: r2 =>
                  match parseValue f r2 with
                  | None => None
                  | Some (v, r3) =>
                      match skipWs r3 with
                      | 44%N :: r4 =>
                          match parseMembers f r4 with
                          | Some (ms, r5) => Some ((key, v) :: ms, r5)
                          | None => None
                          end
                      | 125%N :: r4 => Some ([(key, v)], r4)
                      | _ => None
                      end
                  end
              | _ => None
              end
          end
      | _ => None
      end
  end.

(** [JSON.parse(text)]: [None] stands for the SyntaxError it throws.  Two
    units of fuel per character cover every nesting of the text. *)
Definition JSON_parse (text : jsstring) : option json :=
  match parseValue (2 * length text + 2) text with
  | Some (v, rest) =>
      match skipWs rest with
      | [] => Some v
      | _ => None
      end
  | None => None
  end.

End Json.

Import Json.

(** ** The host engine

    What the repository does not fix: the texts the [Date] formatters print
    for a valid time value, the text of a thrown error converted to a string,
    and what [formatEvent] does on a parsed value that does not have the
    types of an [Event] (the markup it returns, or the text of the error it
    throws). *)

Class Engine := {
  isoText : Z -> jsstring;
  localeTimeText : Z -> jsstring;
  syntaxErrorText : jsstring -> jsstring;
  rangeErrorText : jsstring;
  formatUntyped : json -> jsstring + jsstring
}.

(** [new Date(ms).toISOString()]: throws a RangeError ([None]) on an
    invalid date. *)
Definition toISOString `{Engine} (ms : Z) : option jsstring :=
  if validTime ms then Some (isoText ms) else None.

(** [new Date(ms).toLocaleTimeString()] *)
Definition toLocaleTimeString `{Engine} (ms : Z) : jsstring :=
  if validTime ms then localeTimeText ms else js "Invalid Date".

(** An engine to evaluate examples with. *)
Definition sampleEngine : Engine :=
  {| isoText := fun ms => js "T+" ++ String_of_number ms;
     localeTimeText := fun ms => js "t+" ++ String_of_number ms;
     syntaxErrorText := fun _ => js "SyntaxError";
     rangeErrorText := js "RangeError: Invalid time value";
     formatUntyped := fun _ => inr (js "TypeError") |}.

(** ** [Map<string, V>]: keys in insertion order *)

Module JsMap.

Section Ops.
Context {V : Type}.

Definition t := list (jsstring * V).

Definition keyEq (k : jsstring) (entry : jsstring * V) : bool :=
  strictEq k (fst entry).

(** [m.get(k)] *)
Definition get (k : jsstring) (m : t) : option V :=
  option_map snd (find (keyEq k) m).

(** [m.set(k, v)]: a present key keeps its place and takes the new value,
    a new key goes last. *)
Fixpoint set (k : jsstring) (v : V) (m : t) : t :=
  match m with
  | [] => [(k, v)]
  | entry :: rest =>
      if keyEq k entry then (k, v) :: rest else entry :: set k v rest
  end.

(** [m.delete(k)] *)
Definition delete (k : jsstring) (m : t) : t :=
  List.filter (fun entry => negb (keyEq k entry)) m.

(** [m.size] *)
Definition size (m : t) : nat := length m.

(** [Array.from(m.keys())] *)
Definition keys (m : t) : list jsstring := map fst m.

Definition values (m : t) : list V := map snd m.

End Ops.

Arguments t : clear implicits.

End JsMap.

(** ** relay.ts *)

Module Relay.

Inductive RelayStatus := disconnected | connecting | connected.

(** A subscription filter: the fields [subscribeMemoryEvents] sets. *)
Record Filter := mkFilter {
  kinds : list Z;
  hash_d : list jsstring
}.

(** The library's [Relay] objects, one per [new Relay(url)]; a handle is the
    object's index.  [Closed]: the module called [close()] on it; [Lost]:
    the relay or the network ended the connection. *)
Inductive Phase := Connecting | Open | Failed | Closed | Lost.

Record RelayObj := mkRelayObj {
  r_url : jsstring;
  r_phase : Phase
}.

(** The library's [Sub] objects, one per [relay.subscribe]; [s_closeCalls]
    counts the calls of [sub.close()]. *)
Record SubObj := mkSubObj {
  s_relay : nat;
  s_filters : list Filter;
  s_closeCalls : nat
}.

Record RelayState := mkRelayState {
  url : jsstring;
  relay : option nat;
  status : RelayStatus;
  subscriptions : JsMap.t nat;
  eventCount : Z
}.

Section Module_.
(** [D] is the state of the component whose callbacks are registered (the
    page of the debug console). *)
Context {D : Type}.

Definition StatusListener := RelayStatus -> RelayState -> D -> D.
Definition EventListener := Event -> RelayState -> D -> D.

(** The module's variables ([state], [statusListeners], [eventListeners]),
    the library objects created so far, and the listeners' own state. *)
Record World := mkWorld {
  state : RelayState;
  statusListeners : list StatusListener;
  eventListeners : list EventListener;
  relays : list RelayObj;
  subs : list SubObj;
  ui : D
}.

Definition initialState : RelayState :=
  {| url := []; relay := None; status := disconnected;
     subscriptions := []; eventCount := 0 |}.

Definition initialWorld (d : D) : World :=
  {| state := initialState; statusListeners := []; eventListeners := [];
     relays := []; subs := []; ui := d |}.

Definition onStatusChange (fn : StatusListener) (w : World) : World :=
  {| state := state w; statusListeners := statusListeners w ++ [fn];
     eventListeners := eventListeners w; relays := relays w; subs := subs w;
     ui := ui w |}.

Definition onEvent (fn : EventListener) (w : World) : World :=
  {| state := state w; statusListeners := statusListeners w;
     eventListeners := eventListeners w ++ [fn]; relays := relays w;
     subs := subs w; ui := ui w |}.

Definition withState (st : RelayState) (w : World) : World :=
  {| state := st; statusListeners := statusListeners w;
     eventListeners := eventListeners w; relays := relays w; subs := subs w;
     ui := ui w |}.

Definition withUi (d : D) (w : World) : World :=
  {| state := state w; statusListeners := statusListeners w;
     eventListeners := eventListeners w; relays := relays w; subs := subs w;
     ui := d |}.

Definition withRelays (rs : list RelayObj) (w : World) : World :=
  {| state := state w; statusListeners := statusListeners w;
     eventListeners := eventListeners w; relays := rs; subs := subs w;
     ui := ui w |}.

Definition withSubs (ss : list SubObj) (w : World) : World :=
  {| state := state w; statusListeners := statusListeners w;
     eventListeners := eventListeners w; relays := relays w; subs := ss;
     ui := ui w |}.

Definition setStatus (s : RelayStatus) (w : World) : World :=
  let st := state w in
  let st' := {| url := url st; relay := relay st; status := s;
                subscriptions := subscriptions st;
                eventCount := eventCount st |} in
  withUi (fold_left (fun d fn => fn s st' d) (statusListeners w) (ui w))
         (withState st' w).


Definition closed (o : RelayObj) : RelayObj :=
  {| r_url := r_url o; r_phase := Closed |}.

(** [relay.close()] on the object behind handle [r] *)
Definition closeRelay (r : nat) (rs : list RelayObj) : list RelayObj :=
  alter closed r rs.

Definition closeCalled (o : SubObj) : SubObj :=
  {| s_relay := s_relay o; s_filters := s_filters o;
     s_closeCalls := S (s_closeCalls o) |}.

(** [sub.close()] on the object behind handle [i] *)
Definition closeSub (i : nat) (ss : list SubObj) : list SubObj :=
  alter closeCalled i ss.

(** [connect(url)] up to its [try]: the held connection is closed, the url
    is stored and the status becomes ['connecting']. *)
Definition connect_enter (u : jsstring) (w : World) : World :=
  let w1 :=
    match relay (state w) with
    | Some r => withRelays (closeRelay r (relays w)) w
    | None => w
    end in
  let st := state w1 in
  let w2 := withState {| url := u; relay := relay st; status := status st;
                         subscriptions := subscriptions st;
                         eventCount := eventCount st |} w1 in
  setStatus connecting w2.

(** [connect(url)] when [new Relay(url)] throws [err] (the library rejects
    the url): no object is created, and the [catch] sets the status to
    ['disconnected'] and throws the error again, all before the first
    [await]. *)
Definition connect_refused (u err : jsstring) (w : World) : World * jsstring :=
  (setStatus disconnected (connect_enter u w), err).

(** [connect(url)] up to its [await], when [new Relay(url)] returns: the
    held connection is closed, the status becomes ['connecting'], a new
    [Relay] object is created and its [connect()] is started.  The result is
    the new object's handle. *)
Definition connect_begin (u : jsstring) (w : World) : World * nat :=
  let w1 :=
    match relay (state w) with
    | Some r => withRelays (closeRelay r (relays w)) w
    | None => w
    end in
  let st := state w1 in
  let w2 := withState {| url := u; relay := relay st; status := status st;
                         subscriptions := subscriptions st;
                         eventCount := eventCount st |} w1 in
  let w3 := setStatus connecting w2 in
  let r := length (relays w3) in
  (withRelays (relays w3 ++ [{| r_url := u; r_phase := Connecting |}]) w3, r).

(** How [relay.connect()] settles: resolved, or rejected with an error (its
    text). *)
Inductive Outcome := Resolved | Rejected (err : jsstring).

Definition settleRelay (r : nat) (o : Outcome) (rs : list RelayObj) : list RelayObj :=
  alter (fun obj => {| r_url := r_url obj;
                       r_phase := match o with
                                  | Resolved => Open
                                  | Rejected _ => Failed
                                  end |}) r rs.

(** [connect(url)] after its [await]: [inl tt] when the promise fulfils,
    [inr err] when it rejects with the caught error thrown again. *)
Definition connect_resume (r : nat) (o : Outcome) (w : World) : World * (unit + jsstring) :=
  let w1 := withRelays (settleRelay r o (relays w)) w in
  match o with
  | Resolved =>
      let st := state w1 in
      let w2 := withState {| url := url st; relay := Some r;
                             status := status st;
                             subscriptions := subscriptions st;
                             eventCount := eventCount st |} w1 in
      (setStatus connected w2, inl tt)
  | Rejected err => (setStatus disconnected w1, inr err)
  end.

(** The [for ... of state.subscriptions] loop of [disconnect]: every entry
    is closed and deleted from the map. *)
Fixpoint disconnect_loop (todo : JsMap.t nat) (m : JsMap.t nat) (ss : list SubObj)
  : JsMap.t nat * list SubObj :=
  match todo with
  | [] => (m, ss)
  | (id, sub) :: rest => disconnect_loop rest (JsMap.delete id m) (closeSub sub ss)
  end.

Definition disconnect (w : World) : World :=
  let w1 :=
    match relay (state w) with
    | Some r =>
        let st := state w in
        let '(m, ss) := disconnect_loop (subscriptions st) (subscriptions st) (subs w) in
        withState {| url := url st; relay := None; status := status st;
                     subscriptions := m; eventCount := eventCount st |}
                  (withRelays (closeRelay r (relays w)) (withSubs ss w))
    | None => w
    end in
  setStatus disconnected w1.

(** The filter of the memory subscription. *)
Definition memoryFilter : Filter :=
  {| kinds := [30078]; hash_d := [js "snow:memory:"] |}.

(** The [onevent] callback of the memory subscription. *)
Definition onevent (e : Event) (w : World) : World :=
  let st := state w in
  let st' := {| url := url st; relay := relay st; status := status st;
                subscriptions := subscriptions st;
                eventCount := eventCount st + 1 |} in
  withUi (fold_left (fun d fn => fn e st' d) (eventListeners w) (ui w))
         (withState st' w).

(** [subscribeMemoryEvents()]; [now] is the value of [Date.now()]. *)
Definition subscribeMemoryEvents (now : Z) (w : World) : World * option jsstring :=
  match relay (state w) with
  | None => (w, None)
  | Some r =>
      let subId := js "snow-mem-" ++ String_of_number now in
      let sub := length (subs w) in
      let w1 := withSubs (subs w ++ [{| s_relay := r; s_filters := [memoryFilter];
                                        s_closeCalls := 0 |}]) w in
      let st := state w1 in
      (withState {| url := url st; relay := relay st; status := status st;
                    subscriptions := JsMap.set subId sub (subscriptions st);
                    eventCount := eventCount st |} w1,
       Some subId)
  end.

Definition unsubscribe (subId : jsstring) (w : World) : World :=
  match JsMap.get subId (subscriptions (state w)) with
  | Some sub =>
      let st := state w in
      withState {| url := url st; relay := relay st; status := status st;
                   subscriptions := JsMap.delete subId (subscriptions st);
                   eventCount := eventCount st |}
                (withSubs (closeSub sub (subs w)) w)
  | None => w
  end.

End Module_.

Arguments World : clear implicits.
Arguments StatusListener : clear implicits.
Arguments EventListener : clear implicits.

End Relay.

(** ** The relay library seen from the module

    nostr-tools is not part of the repository.  Its [matchFilter] is
    modelled on the two filter fields the module sets: the event's kind is
    one of [kinds], and some tag [["d", v, ...]] has [v] among the values of
    ["#d"] (an exact comparison, as NIP-01 defines tag filters). *)

Module Library.
Import Relay.

Definition tagMatches (values : list jsstring) (tag : list jsstring) : bool :=
  match tag with
  | t :: v :: _ => strictEq t (js "d") && existsb (strictEq v) values
  | _ => false
  end.

Definition matchFilter (f : Filter) (e : Event) : bool :=
  existsb (Z.eqb (kind e)) (kinds f) && existsb (tagMatches (hash_d f)) (tags e).

Definition matchFilters (fs : list Filter) (e : Event) : bool :=
  existsb (fun f => matchFilter f e) fs.

Section Steps.
Context {D : Type}.

(** What can happen to the module: a call of one of its exported functions,
    an awaited [relay.connect()] settling, the library handing an event to
    the [onevent] callback of a subscription, or the relay or the network
    ending an open connection ([Drop]).  [CallConnect] is a call of
    [connect] whose [new Relay(url)] returns, [CallConnectRefused] one whose
    [new Relay(url)] throws; which urls the library rejects is not fixed
    here, so both are possible for every url. *)
Inductive Call :=
| CallOnStatusChange (fn : StatusListener D)
| CallOnEvent (fn : EventListener D)
| CallConnect (u : jsstring)
| CallDisconnect
| CallSubscribeMemoryEvents (now : Z)
| CallUnsubscribe (subId : jsstring)
| Settle (r : nat) (o : Outcome)
| Deliver (sub : nat) (e : Event)
| CallConnectRefused (u err : jsstring)
| Drop (r : nat).

Definition inFlight (r : nat) (w : World D) : bool :=
  match relays w !! r with
  | Some {| r_phase := Connecting |} => true
  | _ => false
  end.

Definition isOpen (o : RelayObj) : bool :=
  match r_phase o with Open => true | _ => false end.

(** The library calls [onevent] of a subscription only while the
    subscription and its connection are open, and only with an event that
    matches its filters. *)
Definition delivers (sub : nat) (e : Event) (w : World D) : bool :=
  match subs w !! sub with
  | Some s =>
      Nat.eqb (s_closeCalls s) 0
      && match relays w !! s_relay s with
         | Some o => isOpen o
         | None => false
         end
      && matchFilters (s_filters s) e
  | None => false
  end.

Definition lost (o : RelayObj) : RelayObj :=
  {| r_url := r_url o; r_phase := Lost |}.

(** The connection behind handle [r] ends without a call of the module.
    relay.ts registers no handler for this: its variables stay as they
    are. *)
Definition loseRelay (r : nat) (w : World D) : World D :=
  withRelays (alter lost r (relays w)) w.

Definition connectionOpen (r : nat) (w : World D) : bool :=
  match relays w !! r with
  | Some o => isOpen o
  | None => false
  end.

Definition enabled (c : Call) (w : World D) : bool :=
  match c with
  | Settle r _ => inFlight r w
  | Deliver sub e => delivers sub e w
  | Drop r => connectionOpen r w
  | _ => true
  end.

Definition exec (c : Call) (w : World D) : World D :=
  match c with
  | CallOnStatusChange fn => onStatusChange fn w
  | CallOnEvent fn => onEvent fn w
  | CallConnect u => fst (connect_begin u w)
  | CallDisconnect => disconnect w
  | CallSubscribeMemoryEvents now => fst (subscribeMemoryEvents now w)
  | CallUnsubscribe subId => unsubscribe subId w
  | Settle r o => fst (connect_resume r o w)
  | Deliver _ e => onevent e w
  | CallConnectRefused u err => fst (connect_refused u err w)
  | Drop r => loseRelay r w
  end.

Fixpoint run (cs : list Call) (w : World D) : World D :=
  match cs with
  | [] => w
  | c :: rest => run rest (exec c w)
  end.

(** The states of the module: those a sequence of enabled calls leads to
    from the freshly loaded module. *)
Inductive reachable : World D -> Prop :=
| reachable_initial d : reachable (initialWorld d)
| reachable_exec w c :
    reachable w -> enabled c w = true -> reachable (exec c w).

(** The connections that are open (the network side of the state). *)
Definition openConnections (w : World D) : list RelayObj :=
  List.filter (fun o => isOpen o) (relays w).

Definition connectionsInFlight (w : World D) : list RelayObj :=
  List.filter (fun o => match r_phase o with Connecting => true | _ => false end)
         (relays w).

End Steps.

Arguments Call : clear implicits.

End Library.

(** ** debug-console.ts *)

Module DebugConsole.
Import Relay.

Definition SNOW_TAG_PREFIXES : list jsstring :=
  [js "snow:tier"; js "snow:model"; js "snow:confidence"; js "snow:source";
   js "snow:version"; js "snow:supersedes"].

Definition amp : N := 38.
Definition lt : N := 60.
Definition gt : N := 62.
Definition quot : N := 34.
Definition nl : jsstring := [10%N].

Definition escapeHtml (s : jsstring) : jsstring :=
  replaceAll quot (js "&quot;")
    (replaceAll gt (js "&gt;")
       (replaceAll lt (js "&lt;")
          (replaceAll amp (js "&amp;") s))).

(** [tag[0] ?? ''] *)
Definition tagKey (tag : list jsstring) : jsstring := hd [] tag.

Definition isSnow (tag : list jsstring) : bool :=
  existsb (fun p => startsWith (tagKey tag) p) SNOW_TAG_PREFIXES
  || strictEq (tagKey tag) (js "d").

Definition renderTag (tag : list jsstring) : jsstring :=
  let cls := if isSnow tag
             then js " class=" ++ [quot] ++ js "snow-tag" ++ [quot]
             else [] in
  let escaped := join (js ", ") (map escapeHtml tag) in
  js "<span" ++ cls ++ js ">[" ++ escaped ++ js "]</span>".

(** Highlight snow: tags in a tag array display. *)
Definition renderTags (tags : list (list jsstring)) : jsstring :=
  join nl (map renderTag tags).

Section WithEngine.
Context `{Engine}.

(** [None]: the RangeError of [toISOString] on an invalid date. *)
Definition formatEvent (event : Event) : option jsstring :=
  match toISOString (created_at event * 1000) with
  | None => None
  | Some iso =>
      Some (js "<div>" ++ nl
            ++ js "<strong>id:</strong> " ++ escapeHtml (id event) ++ nl
            ++ js "<strong>kind:</strong> " ++ String_of_number (kind event) ++ nl
            ++ js "<strong>pubkey:</strong> " ++ escapeHtml (pubkey event) ++ nl
            ++ js "<strong>created_at:</strong> "
            ++ String_of_number (created_at event) ++ js " (" ++ iso ++ js ")" ++ nl
            ++ js "<strong>tags:</strong>" ++ nl
            ++ renderTags (tags event) ++ nl
            ++ js "<strong>content:</strong>" ++ nl
            ++ escapeHtml (content event) ++ nl
            ++ js "</div>")
  end.

(** The page: the elements [init] looks up, each with the one property the
    handlers read or write. *)
Inductive Content := TextContent (s : jsstring) | InnerHTML (s : jsstring).

Record LogEntry := mkLogEntry {
  className : jsstring;
  innerHTML : jsstring
}.

Record Dom := mkDom {
  relayUrlInput : jsstring;
  btnConnect_disabled : bool;
  btnDisconnect_disabled : bool;
  relayInfo : jsstring;
  statusDot : jsstring;
  statusText : jsstring;
  subList : jsstring;
  eventCountEl : jsstring;
  eventJsonInput : jsstring;
  inspectOutput : Content;
  logEntries : list LogEntry
}.

Definition setRelayInfo (s : jsstring) (d : Dom) : Dom :=
  mkDom (relayUrlInput d) (btnConnect_disabled d) (btnDisconnect_disabled d)
        s (statusDot d) (statusText d) (subList d) (eventCountEl d)
        (eventJsonInput d) (inspectOutput d) (logEntries d).

Definition setSubList (s : jsstring) (d : Dom) : Dom :=
  mkDom (relayUrlInput d) (btnConnect_disabled d) (btnDisconnect_disabled d)
        (relayInfo d) (statusDot d) (statusText d) s (eventCountEl d)
        (eventJsonInput d) (inspectOutput d) (logEntries d).

Definition setInspectOutput (c : Content) (d : Dom) : Dom :=
  mkDom (relayUrlInput d) (btnConnect_disabled d) (btnDisconnect_disabled d)
        (relayInfo d) (statusDot d) (statusText d) (subList d) (eventCountEl d)
        (eventJsonInput d) c (logEntries d).

Definition setLogEntries (l : list LogEntry) (d : Dom) : Dom :=
  mkDom (relayUrlInput d) (btnConnect_disabled d) (btnDisconnect_disabled d)
        (relayInfo d) (statusDot d) (statusText d) (subList d) (eventCountEl d)
        (eventJsonInput d) (inspectOutput d) l.

Definition setEventCountEl (s : jsstring) (d : Dom) : Dom :=
  mkDom (relayUrlInput d) (btnConnect_disabled d) (btnDisconnect_disabled d)
        (relayInfo d) (statusDot d) (statusText d) (subList d) s
        (eventJsonInput d) (inspectOutput d) (logEntries d).

(** Relay status updates *)
Definition statusListener : StatusListener Dom := fun status st d =>
  mkDom (relayUrlInput d)
        (match status with connecting => true | _ => false end)
        (match status with disconnected => true | _ => false end)
        (match status with
         | connected => js "Connected to " ++ url st
         | _ => []
         end)
        (js "status-dot " ++ match status with
                             | connected => js "online"
                             | connecting => js "connecting"
                             | disconnected => js "offline"
                             end)
        (match status with
         | disconnected => js "Disconnected"
         | connecting => js "Connecting"
         | connected => js "Connected"
         end)
        (subList d) (eventCountEl d) (eventJsonInput d) (inspectOutput d)
        (logEntries d).

Definition logLimit : nat := 200.

(** [while (logEntries.children.length > 200) removeChild(lastChild)] *)
Fixpoint keepBounded (fuel : nat) (l : list LogEntry) : list LogEntry :=
  match fuel with
  | O => l
  | S f => if (logLimit <? length l)%nat then keepBounded f (removelast l) else l
  end.

Definition logEntryOf (event : Event) : LogEntry :=
  {| className := js "log-entry";
     innerHTML := js "<strong>" ++ String_of_number (kind event) ++ js "</strong> "
                  ++ escapeHtml (slice0 16 (id event)) ++ js "... <em>"
                  ++ toLocaleTimeString (created_at event * 1000) ++ js "</em>" |}.

(** Event log *)
Definition eventListener : EventListener Dom := fun event st d =>
  let d1 := setEventCountEl (String_of_number (eventCount st)) d in
  let l := logEntryOf event :: logEntries d1 in
  setLogEntries (keepBounded (length l) l) d1.

Definition init (w : World Dom) : World Dom :=
  onEvent eventListener (onStatusChange statusListener w).

(** Connect button, up to the [await].  [None]: the handler returned at
    once (empty url); [Some r]: it awaits the connection [r]. *)
Definition btnConnect_click (w : World Dom) : World Dom * option nat :=
  let u := trim (relayUrlInput (ui w)) in
  match u with
  | [] => (w, None)
  | _ => let '(w1, r) := connect_begin u w in (w1, Some r)
  end.

(** Connect button when [connect] throws [err] before its [await] (the
    library rejects the url): the handler catches the error and shows it. *)
Definition btnConnect_refused (err : jsstring) (w : World Dom) : World Dom :=
  let u := trim (relayUrlInput (ui w)) in
  match u with
  | [] => w
  | _ => let '(w1, thrown) := connect_refused u err w in
         withUi (setRelayInfo (js "Connection failed: " ++ thrown) (ui w1)) w1
  end.

(** Connect button, after the [await]: the error [connect] throws is caught
    and shown. *)
Definition btnConnect_settled (r : nat) (o : Outcome) (w : World Dom) : World Dom :=
  match connect_resume r o w with
  | (w1, inl _) => w1
  | (w1, inr err) =>
      withUi (setRelayInfo (js "Connection failed: " ++ err) (ui w1)) w1
  end.

(** Disconnect button *)
Definition btnDisconnect_click (w : World Dom) : World Dom :=
  let w1 := disconnect w in
  withUi (setSubList (js "No active subscriptions") (ui w1)) w1.



(** The members of a parsed object, read as the fields of an [Event]: the
    last member of a name is the property's value. *)
Definition member (k : jsstring) (ms : list (jsstring * json)) : option json :=
  option_map snd (find (fun m => strictEq k (fst m)) (rev ms)).

Definition asString (v : option json) : option jsstring :=
  match v with Some (JString s) => Some s | _ => None end.

Definition digitsValue (ds : jsstring) : Z :=
  fold_left (fun acc c => acc * 10 + (Z.of_N c - 48)) ds 0.

Definition maxSafeInteger : Z := 9007199254740991.

(** An integer literal within the safe integers, as a number. *)
Definition asInteger (v : option json) : option Z :=
  match v with
  | Some (JNumber lit) =>
      let '(neg, ds) := match lit with
                        | 45%N :: r => (true, r)
                        | _ => (false, lit)
                        end in
      if forallb isDigit ds && negb (Nat.eqb (length ds) 0)
         && (digitsValue ds <=? maxSafeInteger)
      then Some (if neg then - digitsValue ds else digitsValue ds)
      else None
  | _ => None
  end.

Fixpoint allStrings (vs : list json) : option (list jsstring) :=
  match vs with
  | [] => Some []
  | JString s :: rest => option_map (cons s) (allStrings rest)
  | _ => None
  end.

Fixpoint allTags (vs : list json) : option (list (list jsstring)) :=
  match vs with
  | [] => Some []
  | JArray items :: rest =>
      match allStrings items, allTags rest with
      | Some t, Some ts => Some (t :: ts)
      | _, _ => None
      end
  | _ => None
  end.

Definition asTags (v : option json) : option (list (list jsstring)) :=
  match v with Some (JArray vs) => allTags vs | _ => None end.

(** A parsed value whose fields have the types [formatEvent] relies on. *)
Definition asEvent (v : json) : option Event :=
  match v with
  | JObject ms =>
      match asString (member (js "id") ms), asString (member (js "pubkey") ms),
            asInteger (member (js "created_at") ms),
            asInteger (member (js "kind") ms),
            asTags (member (js "tags") ms),
            asString (member (js "content") ms) with
      | Some i, Some p, Some c, Some k, Some t, Some body =>
          Some {| id := i; pubkey := p; created_at := c; kind := k; tags := t;
                  content := body;
                  sig := match asString (member (js "sig") ms) with
                         | Some s => s
                         | None => []
                         end |}
      | _, _, _, _, _, _ => None
      end
  | _ => None
  end.

(** [formatEvent(JSON.parse(raw) as Event)]: the markup, or the text of the
    error thrown. *)
Definition formatParsed (v : json) : jsstring + jsstring :=
  match asEvent v with
  | Some event =>
      match formatEvent event with
      | Some html => inl html
      | None => inr rangeErrorText
      end
  | None => formatUntyped v
  end.

(** Event inspector *)
Definition btnInspect_click (w : World Dom) : World Dom :=
  let raw := trim (eventJsonInput (ui w)) in
  match raw with
  | [] => w
  | _ =>
      match JSON_parse raw with
      | Some v =>
          match formatParsed v with
          | inl html => withUi (setInspectOutput (InnerHTML html) (ui w)) w
          | inr err =>
              withUi (setInspectOutput (TextContent (js "Parse error: " ++ err))
                                       (ui w)) w
          end
      | None =>
          withUi (setInspectOutput
                    (TextContent (js "Parse error: " ++ syntaxErrorText raw))
                    (ui w)) w
      end
  end.


End WithEngine.

End DebugConsole.

(** ** snow-memory: ranking and conflict detection

    The repository declares [rank_memories] and [detect_conflicts] and the
    types they work on, and holds no body for them. *)

Module SnowMemory.

Inductive MemoryTier :=
| Public
| Group (groupId : jsstring)
| Private (owner : jsstring).

Record Memory := mkMemory {
  id : jsstring;
  tier : MemoryTier;
  topic : jsstring;
  summary : jsstring;
  detail : jsstring;
  source : jsstring;
  model : jsstring;
  confidence : Q;
  supersedes : option jsstring;
  tags : list jsstring;
  created_at : Z
}.

Record SourcePreference := mkSourcePreference {
  npub : option jsstring;
  group : option jsstring;
  trust : Q
}.

(** A result of search: [source_rank] and [model_tier] are [None] for an
    unranked source and an unranked model. *)
Record SearchResult := mkSearchResult {
  memory : Memory;
  relevance : Q;
  trust_weight : Q;
  effective_score : Q;
  source_rank : option nat;
  model_tier : option nat
}.

(** A pattern of the model-tier table: a full name, or a prefix followed by
    a wildcard. *)
Inductive ModelPattern :=
| Exact (name : jsstring)
| Prefix (name : jsstring).

Definition ModelTierTable := list (ModelPattern * nat).

Definition matchesModel (m : jsstring) (p : ModelPattern) : bool :=
  match p with
  | Exact name => strictEq m name
  | Prefix name => startsWith m name
  end.

Definition sameKey (k : jsstring) (o : option jsstring) : bool :=
  match o with
  | Some x => strictEq k x
  | None => false
  end.

(** The first entry of [l] that satisfies [p], with its position. *)
Fixpoint findFrom {A : Type} (p : A -> bool) (i : nat) (l : list A) : option (nat * A) :=
  match l with
  | [] => None
  | x :: rest => if p x then Some (i, x) else findFrom p (S i) rest
  end.

(** Modelled from the spec: the body of [rank_memories] is missing; this is
    step 1 of the ranking algorithm.  The entry that decides an item's trust:
    the first one matching its source, or, when the source is unmatched and
    the item's tier is a group, the first one matching that group. *)
Definition matchedPreference (prefs : list SourcePreference) (m : Memory)
  : option (nat * SourcePreference) :=
  match findFrom (fun p => sameKey (source m) (npub p)) 0 prefs with
  | Some hit => Some hit
  | None =>
      match tier m with
      | Group g => findFrom (fun p => sameKey g (group p)) 0 prefs
      | _ => None
      end
  end.

(** Modelled from the spec: the tier of the first pattern of the table that
    matches the model, [None] (unranked) when none does. *)
Definition modelTierOf (table : ModelTierTable) (m : Memory) : option nat :=
  option_map (fun hit => snd (snd hit))
             (findFrom (fun entry => matchesModel (model m) (fst entry)) 0 table).

(** Modelled from the spec: the weight of the deciding entry, the default
    weight when no entry matches. *)
Definition trustWeightOf (prefs : list SourcePreference) (defaultWeight : Q)
    (m : Memory) : Q :=
  match matchedPreference prefs m with
  | Some (_, p) => trust p
  | None => defaultWeight
  end.

(** Modelled from the spec: the position of the deciding entry in the
    preference list, [None] (unranked) when no entry matches. *)
Definition sourceRankOf (prefs : list SourcePreference) (m : Memory) : option nat :=
  option_map fst (matchedPreference prefs m).

(** Modelled from the spec: steps 1 and 2, the fields of a result. *)
Definition score (prefs : list SourcePreference) (table : ModelTierTable)
    (defaultWeight : Q) (candidate : Memory * Q) : SearchResult :=
  {| memory := fst candidate;
     relevance := snd candidate;
     trust_weight := trustWeightOf prefs defaultWeight (fst candidate);
     effective_score := snd candidate * trustWeightOf prefs defaultWeight (fst candidate);
     source_rank := sourceRankOf prefs (fst candidate);
     model_tier := modelTierOf table (fst candidate) |}.

(** Ascending, unranked last. *)
Definition compareRank (a b : option nat) : comparison :=
  match a, b with
  | Some x, Some y => Nat.compare x y
  | Some _, None => Lt
  | None, Some _ => Gt
  | None, None => Eq
  end.

Definition thenBy (c1 c2 : comparison) : comparison :=
  match c1 with
  | Eq => c2
  | _ => c1
  end.

(** Modelled from the spec: steps 3 to 6, the order of two results.  [Lt]:
    [a] goes first. *)
Definition compareResults (a b : SearchResult) : comparison :=
  thenBy (Qcompare (effective_score b) (effective_score a))
    (thenBy (compareRank (source_rank a) (source_rank b))
       (thenBy (compareRank (model_tier a) (model_tier b))
          (Z.compare (created_at (memory b)) (created_at (memory a))))).

(** A stable sort: results that compare equal keep the order they came in. *)
Fixpoint insertResult (x : SearchResult) (l : list SearchResult) : list SearchResult :=
  match l with
  | [] => [x]
  | y :: rest =>
      match compareResults x y with
      | Gt => y :: insertResult x rest
      | _ => x :: l
      end
  end.

Definition sortResults (l : list SearchResult) : list SearchResult :=
  fold_right insertResult [] l.

(** Modelled from the spec: the body of [rank_memories] is missing
    (the repository holds its declaration only); the ranking algorithm of
    the search contract, on candidates that carry their relevance. *)
Definition rank_memories (prefs : list SourcePreference) (table : ModelTierTable)
    (defaultWeight : Q) (candidates : list (Memory * Q)) : list SearchResult :=
  sortResults (map (score prefs table defaultWeight) candidates).

(** The order of the ranking in the spec's words: a higher effective score
    first; on a tie the lower source rank, unranked last; then the lower
    model tier, unranked last; then the newer record. *)
Definition rankBefore (a b : option nat) : Prop :=
  match a, b with
  | Some x, Some y => (x < y)%nat
  | Some _, None => True
  | None, _ => False
  end.

Definition ranksBefore (a b : SearchResult) : Prop :=
  (effective_score b < effective_score a)%Q
  \/ ((effective_score a == effective_score b)%Q
      /\ (rankBefore (source_rank a) (source_rank b)
          \/ (source_rank a = source_rank b
              /\ (rankBefore (model_tier a) (model_tier b)
                  \/ (model_tier a = model_tier b
                      /\ created_at (memory b) <= created_at (memory a)))))).

Record Conflict := mkConflict {
  c_topic : jsstring;
  c_members : list Memory
}.

Section Conflicts.
(** The normalization of a detail payload, which the spec leaves open. *)
Variable normalize : jsstring -> jsstring.

(** Modelled from the spec: two records disagree when their sources are
    distinct and their details differ after normalization. *)
Definition disagree (a b : Memory) : bool :=
  negb (strictEq (source a) (source b))
  && negb (strictEq (normalize (detail a)) (normalize (detail b))).

Definition isConflict (members : list Memory) : bool :=
  existsb (fun a => existsb (disagree a) members) members.

(** The topics of the records, each once, in order of first appearance. *)
Fixpoint topicsOf (seen : list jsstring) (ms : list Memory) : list jsstring :=
  match ms with
  | [] => []
  | m :: rest =>
      if existsb (strictEq (topic m)) seen then topicsOf seen rest
      else topic m :: topicsOf (topic m :: seen) rest
  end.

Definition groupOf (ms : list Memory) (t : jsstring) : list Memory :=
  List.filter (fun m => strictEq (topic m) t) ms.

(** Modelled from the spec: the body of [detect_conflicts] is missing (the
    repository holds its declaration only); the records are grouped by exact
    topic and the groups that hold a disagreeing pair are reported. *)
Definition detect_conflicts (memories : list Memory) : list Conflict :=
  map (fun t => {| c_topic := t; c_members := groupOf memories t |})
      (List.filter (fun t => isConflict (groupOf memories t))
                   (topicsOf [] memories)).

End Conflicts.

End SnowMemory.

(** ** main.ts: panel navigation *)

Module Main.

(** A sidebar link: its [data-panel] attribute and whether its class list
    holds [active]. *)
Record NavLink := mkNavLink {
  dataset_panel : option jsstring;
  link_active : bool
}.

(** A panel: its id and whether its class list holds [active]. *)
Record Panel := mkPanel {
  panel_id : jsstring;
  panel_active : bool
}.

Record Nav := mkNav {
  links : list NavLink;
  panels : list Panel
}.

(** [l.classList.remove('active')] *)
Definition deactivate (l : NavLink) : NavLink :=
  {| dataset_panel := dataset_panel l; link_active := false |}.

(** [link.classList.add('active')] *)
Definition activate (l : NavLink) : NavLink :=
  {| dataset_panel := dataset_panel l; link_active := true |}.

(** [p.classList.toggle('active', p.id === `panel-${target}`)] *)
Definition togglePanel (target : jsstring) (p : Panel) : Panel :=
  {| panel_id := panel_id p;
     panel_active := strictEq (panel_id p) (js "panel-" ++ target) |}.

(** The click handler [initNav] gives the link at position [i]. *)
Definition navClick (i : nat) (nav : Nav) : Nav :=
  match links nav !! i with
  | None => nav
  | Some link =>
      match dataset_panel link with
      | None => nav
      | Some [] => nav
      | Some target =>
          {| links := alter activate i (map deactivate (links nav));
             panels := map (togglePanel target) (panels nav) |}
      end
  end.

End Main.

(** ** The page in use

    What happens to the page of the debug console once [init] has run: the
    user edits a field or clicks a button that is not disabled, a connection
    the Connect button awaits settles, an event arrives on a subscription,
    or an open connection is ended by the relay or the network.
    [ClickConnect] is a click whose [new Relay(url)] returns,
    [ClickConnectRefused] one whose [new Relay(url)] throws. *)

Module Page.
Import Relay Library DebugConsole.





Section WithEngine.
Context `{Engine}.



End WithEngine.

End Page.

(** * Vocabulary of the properties

    Predicates the statements below are written with, and the concrete
    states and events they are evaluated on. *)

Import DebugConsole Relay Library.

(** The four entities, without their leading ampersand. *)
Definition entityTails : list jsstring :=
  [js "amp;"; js "lt;"; js "gt;"; js "quot;"].

Definition isMarkup (c : N) : bool :=
  N.eqb c lt || N.eqb c gt || N.eqb c quot.

(** The markup characters of a text, in order. *)
Definition markupOf (s : jsstring) : jsstring := List.filter isMarkup s.

(** The markup of one rendered tag: that of the [span] around it. *)
Definition tagMarkup (snow : bool) : jsstring :=
  if snow then [lt; quot; quot; gt; lt; gt] else [lt; gt; lt; gt].

(** The log after a run of events, each handled with the module state of
    its moment. *)
Definition logAfter `{Engine} (es : list (Event * Relay.RelayState)) (d : Dom) : Dom :=
  fold_left (fun d' x => eventListener (fst x) (snd x) d') es d.

(** A null handle comes with an empty subscription map; the map holds
    distinct subscription objects on which [close()] was never called; and
    every subscription object carries the memory filter. *)
Record moduleInvariant {D : Type} (w : World D) : Prop := {
  inv_handle : relay (state w) = None -> subscriptions (state w) = [];
  inv_open : forall id i, In (id, i) (subscriptions (state w)) ->
             exists o, subs w !! i = Some o /\ s_closeCalls o = 0%nat;
  inv_distinct : List.NoDup (JsMap.values (subscriptions (state w)));
  inv_filters : forall i o, subs w !! i = Some o -> s_filters o = [memoryFilter]
}.

(** Every call of the sequence is enabled when its turn comes. *)
Fixpoint runnable {D : Type} (cs : list (Call D)) (w : World D) : bool :=
  match cs with
  | [] => true
  | c :: rest => enabled c w && runnable rest (exec c w)
  end.

(** A module with an open connection and one memory subscription. *)
Definition subscribedWorld : World unit :=
  run [CallConnect (js "wss://relay.example"); Settle 0 Resolved;
       CallSubscribeMemoryEvents 1700000000000]
      (initialWorld tt).

(** Some tag [["d", v, ...]] of the event has a value in the memory namespace
    (the prefix [snow:memory:]). *)
Definition inMemoryNamespace (e : Event) : bool :=
  existsb (fun tag => match tag with
                      | t :: v :: _ =>
                          strictEq t (js "d") && startsWith v (js "snow:memory:")
                      | _ => false
                      end) (tags e).

(** An event the memory filter lets through. *)
Definition topicEvent : Event :=
  {| id := js "5c83da77af1dec6d7289834998ad7aafbd9e2191396d75ec3cc27f5a77226f36";
     pubkey := js "f7234bd4c1394dda46d09f35bd384dd30cc552ad5541990f98844fb06676e9ca";
     created_at := 1700000000; kind := 30078;
     tags := [[js "d"; js "snow:memory:"]; [js "snow:tier"; js "public"]];
     content := js "{}"; sig := [] |}.

(** A page as it loads, with a relay url typed in. *)
Definition loadedPage : Dom :=
  {| relayUrlInput := js " wss://relay.example ";
     btnConnect_disabled := false; btnDisconnect_disabled := true;
     relayInfo := []; statusDot := js "status-dot offline";
     statusText := js "Disconnected"; subList := js "No active subscriptions";
     eventCountEl := js "0"; eventJsonInput := [];
     inspectOutput := TextContent []; logEntries := [] |}.

(** Two calls of [connect] before the first one has settled, then both
    connections come up. *)
Definition racingCalls : list (Call unit) :=
  [CallConnect (js "wss://a.example"); CallConnect (js "wss://b.example");
   Settle 0 Resolved; Settle 1 Resolved].

(** The same through the page: Connect, Disconnect while the status is
    ['connecting'] (the Connect button is disabled then, the Disconnect
    button is not), Connect again, and both connections come up. *)
Definition racingClicks : World Dom :=
  let w0 := @init sampleEngine (initialWorld loadedPage) in
  let w1 := fst (btnConnect_click w0) in
  let w2 := btnDisconnect_click w1 in
  let w3 := fst (btnConnect_click w2) in
  btnConnect_settled 1 Resolved (btnConnect_settled 0 Resolved w3).

Definition hasTag (name : jsstring) (e : Event) : bool :=
  existsb (fun tag => strictEq (tagKey tag) name) (tags e).

Definition requiredTags : list jsstring :=
  [js "d"; js "snow:tier"; js "snow:model"; js "snow:confidence"].

(** Modelled from the spec: a malformed event misses a required field of
    the record format (the key, the tier marker, the model or the confidence
    tag), has its key outside the memory namespace, or has a body that does
    not parse. *)
Definition malformed (e : Event) : bool :=
  negb (forallb (fun name => hasTag name e) requiredTags)
  || negb (inMemoryNamespace e)
  || match JSON_parse (content e) with
     | Some _ => false
     | None => true
     end.

(** An event the memory filter lets through, without tier, model and
    confidence tags and with a body that is no JSON text. *)
Definition brokenEvent : Event :=
  {| id := js "9d1f0c6f2f3f44a1b6f1f5a2f0a8c1c2d3e4f5a6b7c8d9e0f1a2b3c4d5e6f7a8";
     pubkey := js "f7234bd4c1394dda46d09f35bd384dd30cc552ad5541990f98844fb06676e9ca";
     created_at := 1700000000; kind := 30078;
     tags := [[js "d"; js "snow:memory:"]];
     content := js "{summary: oops"; sig := [] |}.

(** The page with an open connection and one memory subscription. *)
Definition consoleWorld : World Dom :=
  run [CallConnect (js "wss://relay.example"); Settle 0 Resolved;
       CallSubscribeMemoryEvents 1700000000000]
      (@init sampleEngine (initialWorld loadedPage)).

(** A page whose inspector shows an earlier result and whose input holds
    blanks only. *)
Definition staleInspector : World Dom :=
  initialWorld
    {| relayUrlInput := []; btnConnect_disabled := false;
       btnDisconnect_disabled := true; relayInfo := []; statusDot := [];
       statusText := []; subList := []; eventCountEl := js "0";
       eventJsonInput := js "   ";
       inspectOutput := InnerHTML (js "<div>earlier result</div>");
       logEntries := [] |}.

(** The input of an event inspector holding text that is no JSON. *)
Definition garbledInspector : World Dom :=
  initialWorld
    {| relayUrlInput := []; btnConnect_disabled := false;
       btnDisconnect_disabled := true; relayInfo := []; statusDot := [];
       statusText := []; subList := []; eventCountEl := js "0";
       eventJsonInput := js " {kind: 30078 ";
       inspectOutput := TextContent [];
       logEntries := [] |}.

(** Two records of equal relevance from the first and the second source of
    the preference list. *)
Definition samplePrefs : list SnowMemory.SourcePreference :=
  [SnowMemory.mkSourcePreference (Some (js "npubA")) None (9 # 10);
   SnowMemory.mkSourcePreference (Some (js "npubB")) None (5 # 10)].

Definition sampleMemory (source topic detail : string) : SnowMemory.Memory :=
  SnowMemory.mkMemory (js "event-" ++ js source) SnowMemory.Public (js topic) []
    (js detail) (js source) (js "anthropic/claude-opus-4") (1 # 2) None [] 1700000000.

Definition sampleCandidates : list (SnowMemory.Memory * Q) :=
  [(sampleMemory "npubB" "relay-setup" "use port 7777", 8 # 10);
   (sampleMemory "npubA" "relay-setup" "use port 4848", 8 # 10)].

(** Details are compared as they are. *)
Definition keepDetail (s : jsstring) : jsstring := s.

(** An event of the same kind and time as [topicEvent], with the same tags
    highlighted, whose fields try to open and close elements. *)
Definition hostileEvent : Event :=
  {| id := js "<script>alert(1)</script>";
     pubkey := [quot] ++ js " onmouseover=alert(2) x=" ++ [quot];
     created_at := 1700000000; kind := 30078;
     tags := [[js "d"; js "</span><img src=x>"];
              [js "snow:tier<b>"; js "a & b"; js ">"]];
     content := js "</div><iframe>"; sig := [] |}.

(** The handle refers to a connection that has settled, and the status
    ['connected'] comes with a held connection that came up and that the
    module has not closed: it is open, or the other side has ended it. *)
Record connectionInvariant {D : Type} (w : World D) : Prop := {
  held_settled : forall r, relay (state w) = Some r ->
                 exists o, relays w !! r = Some o /\ r_phase o <> Connecting;
  connected_up : status (state w) = connected ->
                 exists r o, relay (state w) = Some r
                             /\ relays w !! r = Some o
                             /\ (r_phase o = Open \/ r_phase o = Lost)
}.

(** The relay objects once the held connection, if any, is closed. *)
Definition heldClosed {D : Type} (w : World D) : list RelayObj :=
  match relay (state w) with
  | Some r => closeRelay r (relays w)
  | None => relays w
  end.

(** The number of events the library hands over in a sequence of calls. *)
Fixpoint deliveries {D : Type} (cs : list (Call D)) : nat :=
  match cs with
  | [] => 0
  | Deliver _ _ :: rest => S (deliveries rest)
  | _ :: rest => deliveries rest
  end.









(** The characters [escapeHtml] replaces. *)
Definition isSpecial (c : N) : bool :=
  N.eqb c amp || N.eqb c lt || N.eqb c gt || N.eqb c quot.

(** The text that stands for one character in the output of [escapeHtml]. *)
Definition escapeChar (c : N) : jsstring :=
  if N.eqb c amp then js "&amp;"
  else if N.eqb c lt then js "&lt;"
  else if N.eqb c gt then js "&gt;"
  else if N.eqb c quot then js "&quot;"
  else [c].

(** Seconds whose time value in milliseconds is a valid date. *)
Definition secondsInRange (t : Z) : Prop :=
  -8640000000000 <= t <= 8640000000000.

(** A name or a text between double quotes. *)
Definition quoted (s : string) : jsstring := [quot] ++ js s ++ [quot].

(** The JSON text of an event created far beyond the last valid date. *)
Definition lateEventJson : jsstring :=
  js "{" ++ quoted "id" ++ js ":" ++ quoted "ab" ++ js ","
  ++ quoted "pubkey" ++ js ":" ++ quoted "cd" ++ js ","
  ++ quoted "created_at" ++ js ":9000000000000,"
  ++ quoted "kind" ++ js ":30078,"
  ++ quoted "tags" ++ js ":[[" ++ quoted "d" ++ js "," ++ quoted "snow:memory:x" ++ js "]],"
  ++ quoted "content" ++ js ":" ++ quoted "{}" ++ js "}".

Definition lateInspector : World Dom :=
  initialWorld
    {| relayUrlInput := []; btnConnect_disabled := false;
       btnDisconnect_disabled := true; relayInfo := []; statusDot := [];
       statusText := []; subList := []; eventCountEl := js "0";
       eventJsonInput := lateEventJson;
       inspectOutput := TextContent [];
       logEntries := [] |}.

(** The key of an addressable event: the value of its first [d] tag. *)
Definition dKey (e : Event) : option jsstring :=
  match find (fun tag => strictEq (tagKey tag) (js "d")) (tags e) with
  | Some (_ :: v :: _) => Some v
  | _ => None
  end.

(** The key of the event lies in the memory namespace: it starts with
    [snow:memory:]. *)
Definition keyInMemoryNamespace (e : Event) : bool :=
  match dKey e with
  | Some v => startsWith v (js "snow:memory:")
  | None => false
  end.

(** Some tag of the event is [["d", "snow:memory:", ...]]: its value is the
    prefix and nothing more. *)
Definition hasBarePrefixTag (e : Event) : bool :=
  existsb (fun tag => match tag with
                      | t :: v :: _ =>
                          strictEq t (js "d") && strictEq v (js "snow:memory:")
                      | _ => false
                      end) (tags e).

(** A memory record in the record format: its key names a topic in the
    memory namespace. *)
Definition memoryRecord : Event :=
  {| id := js "3bf0c63fcb93463407af97a5e5ee64fa883d107ef9e558472c4eb9aaaefa459d";
     pubkey := js "f7234bd4c1394dda46d09f35bd384dd30cc552ad5541990f98844fb06676e9ca";
     created_at := 1700000000; kind := 30078;
     tags := [[js "d"; js "snow:memory:relay-setup"]; [js "snow:tier"; js "public"];
              [js "snow:model"; js "anthropic/claude-opus-4"];
              [js "snow:confidence"; js "0.85"]];
     content := js "{" ++ quoted "summary" ++ js ":" ++ quoted "use port 7777" ++ js "}";
     sig := [] |}.

(** An event keyed outside the memory namespace that carries the prefix in
    a second [d] tag. *)
Definition strayEvent : Event :=
  {| id := js "7a1c0d2e3f4a5b6c7d8e9f00112233445566778899aabbccddeeff0011223344";
     pubkey := js "f7234bd4c1394dda46d09f35bd384dd30cc552ad5541990f98844fb06676e9ca";
     created_at := 1700000000; kind := 30078;
     tags := [[js "d"; js "snow:config:owner"]; [js "d"; js "snow:memory:"]];
     content := js "{}"; sig := [] |}.

(** A module with an open connection on which [subscribeMemoryEvents] was
    called twice within one millisecond. *)
Definition twiceSubscribed : World unit :=
  run [CallConnect (js "wss://relay.example"); Settle 0 Resolved;
       CallSubscribeMemoryEvents 1700000000000;
       CallSubscribeMemoryEvents 1700000000000]
      (initialWorld tt).

(** The same on a connection the module no longer holds: [connect] is
    called twice before the first connection comes up, the two calls of
    [subscribeMemoryEvents] fall between the two connections coming up. *)
Definition strandedSubscription : World unit :=
  run [CallConnect (js "wss://a.example"); CallConnect (js "wss://b.example");
       Settle 0 Resolved;
       CallSubscribeMemoryEvents 1700000000000;
       CallSubscribeMemoryEvents 1700000000000;
       Settle 1 Resolved]
      (initialWorld tt).

(** A sidebar of three links, the second without a panel, and two panels. *)
Definition sampleNav : Main.Nav :=
  {| Main.links := [Main.mkNavLink (Some (js "memory")) true;
                    Main.mkNavLink None false;
                    Main.mkNavLink (Some (js "debug")) false];
     Main.panels := [Main.mkPanel (js "panel-memory") true;
                     Main.mkPanel (js "panel-debug") false] |}.


(** * Properties *)

(** ** JSON *)

Example JSON_parse_array :
  JSON_parse (js " [1, -2.5e3, true, null, [ ], {}] ")
  = Some (JArray [JNumber (js "1"); JNumber (js "-2.5e3"); JBool true; JNull;
                  JArray []; JObject []]).
Proof. vm_compute. reflexivity. Qed.

Example JSON_parse_member :
  JSON_parse (js "{" ++ [34%N] ++ js "kA" ++ [34%N] ++ js ": 01}") = None
  /\ JSON_parse (js "{" ++ [34%N] ++ js "k\u0041" ++ [34%N] ++ js ": 0}")
     = Some (JObject [(js "kA", JNumber (js "0"))]).
Proof. vm_compute. split; reflexivity. Qed.

(** ** Strings *)

Lemma strictEq_spec (a b : jsstring) : strictEq a b = true <-> a = b.
Proof.
  revert b. induction a as [|x a IH]; intros [|y b]; simpl; split;
    try congruence; try reflexivity.
  - intros Hb. apply andb_true_iff in Hb as [Hx Hab].
    apply N.eqb_eq in Hx. apply IH in Hab. congruence.
  - intros Heq. injection Heq as -> ->. rewrite N.eqb_refl. simpl.
    apply IH. reflexivity.
Qed.

Lemma strictEq_refl (a : jsstring) : strictEq a a = true.
Proof. apply strictEq_spec. reflexivity. Qed.

Lemma strictEq_false (a b : jsstring) : strictEq a b = false <-> a <> b.
Proof.
  split.
  - intros Hf Heq. apply strictEq_spec in Heq. congruence.
  - intros Hne. destruct (strictEq a b) eqn:E; [|reflexivity].
    apply strictEq_spec in E. contradiction.
Qed.

Lemma startsWith_app (p s : jsstring) : startsWith (p ++ s) p = true.
Proof.
  induction p as [|c p IH]; simpl; [reflexivity|].
  rewrite N.eqb_refl. exact IH.
Qed.


Lemma replaceAll_app (c : N) (by_ a b : jsstring) :
  replaceAll c by_ (a ++ b) = replaceAll c by_ a ++ replaceAll c by_ b.
Proof.
  induction a as [|x a IH]; simpl; [reflexivity|].
  destruct (N.eqb x c); rewrite IH; [rewrite <- app_assoc|]; reflexivity.
Qed.

(** ** escapeHtml *)

Lemma escapeHtml_app (a b : jsstring) :
  escapeHtml (a ++ b) = escapeHtml a ++ escapeHtml b.
Proof. unfold escapeHtml. rewrite !replaceAll_app. reflexivity. Qed.

Lemma escapeHtml_cons (c : N) (s : jsstring) :
  escapeHtml (c :: s) = escapeHtml [c] ++ escapeHtml s.
Proof. apply (escapeHtml_app [c] s). Qed.

Lemma replaceAll_other (c : N) (by_ : jsstring) (x : N) :
  x <> c -> replaceAll c by_ [x] = [x].
Proof.
  intros Hne. simpl. destruct (N.eqb_spec x c); [contradiction|reflexivity].
Qed.

(** What one character becomes: an entity for the four special characters,
    itself otherwise. *)
Lemma escapeHtml_char (c : N) :
  (exists tail, In tail entityTails /\ escapeHtml [c] = amp :: tail)
  \/ (escapeHtml [c] = [c] /\ c <> amp /\ isMarkup c = false).
Proof.
  destruct (N.eq_dec c amp) as [->|Ha].
  { left. exists (js "amp;"). split; [simpl; auto|reflexivity]. }
  destruct (N.eq_dec c lt) as [->|Hl].
  { left. exists (js "lt;"). split; [simpl; auto|reflexivity]. }
  destruct (N.eq_dec c gt) as [->|Hg].
  { left. exists (js "gt;"). split; [simpl; auto|reflexivity]. }
  destruct (N.eq_dec c quot) as [->|Hq].
  { left. exists (js "quot;"). split; [simpl; auto 6|reflexivity]. }
  right. split; [|split].
  - unfold escapeHtml. rewrite !replaceAll_other by assumption. reflexivity.
  - exact Ha.
  - unfold isMarkup.
    apply N.eqb_neq in Hl, Hg, Hq. rewrite Hl, Hg, Hq. reflexivity.
Qed.

Lemma entityTails_plain (tail : jsstring) :
  In tail entityTails -> Forall (fun c => c <> amp /\ isMarkup c = false) tail.
Proof.
  unfold entityTails. simpl.
  intros [<-|[<-|[<-|[<-|[]]]]]; repeat constructor; discriminate.
Qed.

Lemma escapeHtml_no_markup (s : jsstring) :
  Forall (fun c => isMarkup c = false) (escapeHtml s).
Proof.
  induction s as [|c s IH]; [constructor|].
  rewrite escapeHtml_cons. apply Forall_app. split; [|exact IH].
  destruct (escapeHtml_char c) as [(tail & Hin & ->)|(-> & _ & Hm)].
  - constructor; [reflexivity|].
    eapply List.Forall_impl; [|apply entityTails_plain, Hin]. intros ? [_ ?]. assumption.
  - constructor; [exact Hm|constructor].
Qed.

(** A text without ampersand in front of [rest] is passed whole before the
    first ampersand is met. *)
Lemma split_after_plain (plain rest pre post : jsstring) :
  Forall (fun c => c <> amp) plain ->
  plain ++ rest = pre ++ amp :: post ->
  exists pre', pre = plain ++ pre' /\ rest = pre' ++ amp :: post.
Proof.
  revert pre. induction plain as [|c plain IH]; intros pre Hplain Heq.
  - exists pre. split; [reflexivity|exact Heq].
  - inversion Hplain as [|? ? Hc Hrest]; subst.
    destruct pre as [|p pre]; simpl in Heq.
    + injection Heq as Heq _. contradiction.
    + injection Heq as -> Heq. destruct (IH _ Hrest Heq) as (pre' & -> & ->).
      exists pre'. split; reflexivity.
Qed.

Lemma escapeHtml_ampersands (s pre post : jsstring) :
  escapeHtml s = pre ++ amp :: post ->
  exists tail, In tail entityTails /\ startsWith post tail = true.
Proof.
  revert pre. induction s as [|c s IH]; intros pre Heq.
  - destruct pre; discriminate.
  - rewrite escapeHtml_cons in Heq.
    destruct (escapeHtml_char c) as [(tail & Hin & Hc)|(Hc & Hamp & _)];
      rewrite Hc in Heq.
    + destruct pre as [|p pre]; simpl in Heq.
      * injection Heq as <-. exists tail. split; [exact Hin|apply startsWith_app].
      * injection Heq as _ Heq.
        destruct (split_after_plain tail (escapeHtml s) pre post) as (pre' & _ & Hs).
        { eapply List.Forall_impl; [|apply entityTails_plain, Hin]. intros ? [? _]. assumption. }
        { exact Heq. }
        apply (IH pre'). exact Hs.
    + destruct pre as [|p pre]; simpl in Heq.
      * injection Heq as Heq _. contradiction.
      * injection Heq as _ Heq. apply (IH pre). exact Heq.
Qed.

Lemma markupOf_app (a b : jsstring) : markupOf (a ++ b) = markupOf a ++ markupOf b.
Proof. apply List.filter_app. Qed.

Lemma markupOf_escapeHtml (s : jsstring) : markupOf (escapeHtml s) = [].
Proof.
  unfold markupOf. pose proof (escapeHtml_no_markup s) as Hs.
  induction Hs as [|c l Hc _ IH]; simpl; [reflexivity|].
  rewrite Hc. exact IH.
Qed.

Lemma markupOf_join (sep : jsstring) (parts : list jsstring) :
  markupOf sep = [] -> markupOf (join sep parts) = flat_map markupOf parts.
Proof.
  intros Hsep. induction parts as [|p rest IH]; [reflexivity|].
  destruct rest as [|q rest].
  - simpl. rewrite app_nil_r. reflexivity.
  - change (join sep (p :: q :: rest)) with (p ++ sep ++ join sep (q :: rest)).
    rewrite !markupOf_app, Hsep, IH. reflexivity.
Qed.

Lemma markupOf_escaped_values (tag : list jsstring) :
  markupOf (join (js ", ") (map escapeHtml tag)) = [].
Proof.
  rewrite markupOf_join by reflexivity.
  induction tag as [|v tag IH]; cbn [flat_map map]; [reflexivity|].
  rewrite markupOf_escapeHtml. exact IH.
Qed.

Lemma markupOf_renderTag (tag : list jsstring) :
  markupOf (renderTag tag) = tagMarkup (isSnow tag).
Proof.
  unfold renderTag. rewrite !markupOf_app, markupOf_escaped_values.
  destruct (isSnow tag); reflexivity.
Qed.

Lemma markupOf_renderTags (tags : list (list jsstring)) :
  markupOf (renderTags tags) = flat_map tagMarkup (map isSnow tags).
Proof.
  unfold renderTags. rewrite markupOf_join by reflexivity.
  induction tags as [|tag tags IH]; cbn [flat_map map]; [reflexivity|].
  rewrite markupOf_renderTag, IH. reflexivity.
Qed.

Lemma markupOf_formatEvent `{Engine} (e : Event) (html : jsstring) :
  formatEvent e = Some html ->
  exists iso,
    toISOString (created_at e * 1000) = Some iso
    /\ markupOf html
       = markupOf (js "<div><strong></strong><strong></strong>")
         ++ markupOf (String_of_number (kind e))
         ++ markupOf (js "<strong></strong><strong></strong>")
         ++ markupOf (String_of_number (created_at e)) ++ markupOf iso
         ++ markupOf (js "<strong></strong>")
         ++ flat_map tagMarkup (map isSnow (tags e))
         ++ markupOf (js "<strong></strong></div>").
Proof.
  unfold formatEvent. destruct (toISOString (created_at e * 1000)) as [iso|];
    [|discriminate].
  intros Heq. apply (inj Some) in Heq. subst html.
  exists iso. split; [reflexivity|].
  rewrite !markupOf_app, !markupOf_escapeHtml, markupOf_renderTags.
  reflexivity.
Qed.

(** C8.  The output of [escapeHtml] holds none of the characters [<], [>]
    and the double quote, and every ampersand in it starts one of the
    entities [&amp;], [&lt;], [&gt;], [&quot;].  So the fields [renderTags]
    and [formatEvent] pass through it (id, pubkey, tag values, content)
    cannot inject markup: the markup characters of the rendered text are the
    same for two events that agree on kind, creation time and on which of
    their tags are highlighted, whatever those fields hold. *)
Theorem escapeHtml_blocks_markup `{Engine} (s : jsstring) :
  Forall (fun c => c <> lt /\ c <> gt /\ c <> quot) (escapeHtml s)
  /\ (forall pre post, escapeHtml s = pre ++ amp :: post ->
        exists tail, In tail entityTails /\ startsWith post tail = true)
  /\ (forall tags1 tags2, map isSnow tags1 = map isSnow tags2 ->
        markupOf (renderTags tags1) = markupOf (renderTags tags2))
  /\ (forall e1 e2 html1 html2,
        kind e1 = kind e2 -> created_at e1 = created_at e2 ->
        map isSnow (tags e1) = map isSnow (tags e2) ->
        formatEvent e1 = Some html1 -> formatEvent e2 = Some html2 ->
        markupOf html1 = markupOf html2).
Proof.
  split; [|split; [|split]].
  - eapply List.Forall_impl; [|apply escapeHtml_no_markup].
    intros c Hc. unfold isMarkup in Hc.
    apply orb_false_iff in Hc as [Hc Hq]. apply orb_false_iff in Hc as [Hl Hg].
    apply N.eqb_neq in Hl, Hg, Hq. auto.
  - intros pre post. apply escapeHtml_ampersands.
  - intros tags1 tags2 Hsnow. rewrite !markupOf_renderTags, Hsnow. reflexivity.
  - intros e1 e2 html1 html2 Hkind Htime Hsnow H1 H2.
    destruct (markupOf_formatEvent e1 html1 H1) as (iso1 & Hiso1 & ->).
    destruct (markupOf_formatEvent e2 html2 H2) as (iso2 & Hiso2 & ->).
    rewrite Htime, Hiso2 in Hiso1. injection Hiso1 as ->.
    rewrite Hkind, Htime, Hsnow. reflexivity.
Qed.

Lemma escapeHtml_blocks_markup_witness :
  escapeHtml (js "<b>&" ++ [quot]) = js "&lt;b&gt;&amp;&quot;"
  /\ exists html1 html2,
       @formatEvent sampleEngine topicEvent = Some html1
       /\ @formatEvent sampleEngine hostileEvent = Some html2
       /\ markupOf html1 = markupOf html2.
Proof.
  split; [reflexivity|].
  destruct (@escapeHtml_blocks_markup sampleEngine []) as (_ & _ & _ & Hsame).
  eexists. eexists. split; [reflexivity|]. split; [reflexivity|].
  apply (Hsame topicEvent hostileEvent); reflexivity.
Defined.

(** ** The event log *)

Lemma keepBounded_firstn (fuel : nat) (l : list LogEntry) :
  (length l - logLimit <= fuel)%nat -> keepBounded fuel l = firstn logLimit l.
Proof.
  revert l. induction fuel as [|f IH]; intros l Hfuel; simpl.
  - symmetry. apply firstn_all2. lia.
  - destruct (Nat.ltb_spec logLimit (length l)) as [Hlong|Hshort].
    + rewrite IH.
      * rewrite removelast_firstn_len, firstn_firstn. f_equal. lia.
      * rewrite removelast_firstn_len, length_firstn. lia.
    + symmetry. apply firstn_all2. exact Hshort.
Qed.

Lemma eventListener_log `{Engine} (e : Event) (st : Relay.RelayState) (d : Dom) :
  logEntries (eventListener e st d) = firstn logLimit (logEntryOf e :: logEntries d).
Proof.
  unfold eventListener. cbn [logEntries setLogEntries setEventCountEl].
  apply keepBounded_firstn. lia.
Qed.

Lemma firstn_app_firstn {A : Type} (n : nat) (a b : list A) :
  firstn n (a ++ firstn n b) = firstn n (a ++ b).
Proof.
  rewrite !firstn_app, firstn_firstn. do 2 f_equal. lia.
Qed.

Lemma logAfter_entries `{Engine} (es : list (Event * Relay.RelayState)) (d : Dom) :
  (length (logEntries d) <= logLimit)%nat ->
  logEntries (logAfter es d)
  = firstn logLimit (rev (map (fun x => logEntryOf (fst x)) es) ++ logEntries d).
Proof.
  revert d. induction es as [|x es IH]; intros d Hd.
  - symmetry. apply firstn_all2. exact Hd.
  - change (logAfter (x :: es) d) with (logAfter es (eventListener (fst x) (snd x) d)).
    rewrite IH.
    + rewrite eventListener_log, firstn_app_firstn.
      cbn [map rev]. rewrite <- app_assoc. reflexivity.
    + rewrite eventListener_log. apply firstn_le_length.
Qed.

(** C10.  After the log handler has run for an event, the log holds at most
    200 entries: it is the new entry followed by the old ones, cut after the
    200th, so only the oldest entries leave.  From an empty log, the log
    after any run of events holds the most recent 200 of them, newest
    first. *)
Theorem event_log_bounded `{Engine} (e : Event) (st : Relay.RelayState) (d : Dom) :
  (length (logEntries (eventListener e st d)) <= 200)%nat
  /\ logEntries (eventListener e st d) = firstn 200 (logEntryOf e :: logEntries d)
  /\ (forall es, logEntries (logAfter es (setLogEntries [] d))
                 = firstn 200 (rev (map (fun x => logEntryOf (fst x)) es))).
Proof.
  split; [|split].
  - rewrite eventListener_log. apply firstn_le_length.
  - apply eventListener_log.
  - intros es. rewrite logAfter_entries.
    + cbn [logEntries setLogEntries]. rewrite app_nil_r. reflexivity.
    + cbn [logEntries setLogEntries length]. unfold logLimit. lia.
Qed.

(** ** The subscription map *)

Lemma JsMap_delete_In {V : Type} (k : jsstring) (m : JsMap.t V) (entry : jsstring * V) :
  In entry (JsMap.delete k m) <-> In entry m /\ fst entry <> k.
Proof.
  unfold JsMap.delete, JsMap.keyEq. rewrite List.filter_In.
  split; intros [Hin Hk]; split; try exact Hin.
  - apply negb_true_iff, strictEq_false in Hk. congruence.
  - apply negb_true_iff, strictEq_false. congruence.
Qed.

Lemma JsMap_set_In {V : Type} (k : jsstring) (v : V) (m : JsMap.t V)
    (entry : jsstring * V) :
  In entry (JsMap.set k v m) -> entry = (k, v) \/ In entry m.
Proof.
  induction m as [|x m IH]; simpl.
  - intros [<-|[]]. left. reflexivity.
  - destruct (JsMap.keyEq k x).
    + intros [<-|Hin]; [left; reflexivity|right; right; exact Hin].
    + intros [<-|Hin]; [right; left; reflexivity|].
      destruct (IH Hin) as [->|Hm]; [left; reflexivity|right; right; exact Hm].
Qed.

Lemma JsMap_set_set {V : Type} (k : jsstring) (v1 v2 : V) (m : JsMap.t V) :
  JsMap.set k v2 (JsMap.set k v1 m) = JsMap.set k v2 m.
Proof.
  induction m as [|x m IH]; simpl.
  - unfold JsMap.keyEq. simpl. rewrite strictEq_refl. reflexivity.
  - destruct (JsMap.keyEq k x) eqn:Hk; simpl.
    + unfold JsMap.keyEq at 1. simpl. rewrite strictEq_refl. reflexivity.
    + rewrite Hk, IH. reflexivity.
Qed.

Lemma JsMap_size_set {V : Type} (k : jsstring) (v1 v2 : V) (m : JsMap.t V) :
  JsMap.size (JsMap.set k v1 m) = JsMap.size (JsMap.set k v2 m).
Proof.
  unfold JsMap.size. induction m as [|x m IH]; simpl; [reflexivity|].
  destruct (JsMap.keyEq k x); simpl; [reflexivity|]. rewrite IH. reflexivity.
Qed.

Lemma JsMap_get_set {V : Type} (k : jsstring) (v : V) (m : JsMap.t V) :
  JsMap.get k (JsMap.set k v m) = Some v.
Proof.
  unfold JsMap.get. induction m as [|x m IH]; simpl.
  - unfold JsMap.keyEq. simpl. rewrite strictEq_refl. reflexivity.
  - destruct (JsMap.keyEq k x) eqn:Hk; simpl.
    + unfold JsMap.keyEq at 1. simpl. rewrite strictEq_refl. reflexivity.
    + rewrite Hk. exact IH.
Qed.

Lemma JsMap_set_values {V : Type} (k : jsstring) (v : V) (m : JsMap.t V) :
  List.NoDup (JsMap.values m) -> ~ In v (JsMap.values m) ->
  List.NoDup (JsMap.values (JsMap.set k v m)).
Proof.
  unfold JsMap.values.
  induction m as [|x m IH]; simpl; intros Hnd Hv.
  - constructor; [intros []|constructor].
  - inversion Hnd as [|? ? Hx Hm]; subst.
    destruct (JsMap.keyEq k x); simpl.
    + constructor; [tauto|exact Hm].
    + constructor.
      * intros Hin. apply in_map_iff in Hin as (entry & Hsnd & Hin).
        apply JsMap_set_In in Hin as [->|Hin].
        -- simpl in Hsnd. apply Hv. left. congruence.
        -- apply Hx. rewrite <- Hsnd. apply in_map. exact Hin.
      * apply IH; [exact Hm|tauto].
Qed.

Lemma JsMap_delete_values {V : Type} (k : jsstring) (m : JsMap.t V) :
  List.NoDup (JsMap.values m) -> List.NoDup (JsMap.values (JsMap.delete k m)).
Proof.
  unfold JsMap.values, JsMap.delete.
  induction m as [|x m IH]; simpl; intros Hnd; [constructor|].
  inversion Hnd as [|? ? Hx Hm]; subst.
  destruct (negb (JsMap.keyEq k x)); simpl; [|apply IH, Hm].
  constructor; [|apply IH, Hm].
  intros Hin. apply Hx. apply in_map_iff in Hin as (entry & Hsnd & Hin).
  apply List.filter_In in Hin as [Hin _].
  rewrite <- Hsnd. apply in_map. exact Hin.
Qed.

Lemma JsMap_get_In {V : Type} (k : jsstring) (m : JsMap.t V) (v : V) :
  JsMap.get k m = Some v -> In (k, v) m.
Proof.
  unfold JsMap.get. destruct (find (JsMap.keyEq k) m) as [[k' v']|] eqn:Hfind;
    [|discriminate].
  intros [= <-]. apply find_some in Hfind as [Hin Hk].
  apply strictEq_spec in Hk. simpl in Hk. subst k'. exact Hin.
Qed.

Lemma values_injective {V : Type} (m : JsMap.t V) (k1 k2 : jsstring) (v : V) :
  List.NoDup (JsMap.values m) -> In (k1, v) m -> In (k2, v) m -> k1 = k2.
Proof.
  unfold JsMap.values.
  induction m as [|x m IH]; simpl; intros Hnd H1 H2; [contradiction|].
  inversion Hnd as [|? ? Hx Hm]; subst.
  destruct H1 as [->|H1], H2 as [H2|H2].
  - congruence.
  - exfalso. apply Hx. simpl. apply (in_map snd) in H2. exact H2.
  - subst x. exfalso. apply Hx. simpl. apply (in_map snd) in H1. exact H1.
  - apply IH; assumption.
Qed.

(** ** disconnect *)

Lemma disconnect_loop_map (todo m : JsMap.t nat) (ss : list SubObj) (entry : jsstring * nat) :
  In entry (fst (disconnect_loop todo m ss)) ->
  In entry m /\ ~ In (fst entry) (JsMap.keys todo).
Proof.
  revert m ss. induction todo as [|[id sub] todo IH]; intros m ss Hin.
  - split; [exact Hin|intros []].
  - simpl in Hin. apply IH in Hin as [Hin Hkeys].
    apply JsMap_delete_In in Hin as [Hin Hne].
    split; [exact Hin|]. simpl. intros [Heq|Hk]; [congruence|contradiction].
Qed.

Lemma disconnect_loop_empties (m : JsMap.t nat) (ss : list SubObj) :
  fst (disconnect_loop m m ss) = [].
Proof.
  destruct (fst (disconnect_loop m m ss)) as [|entry rest] eqn:Hloop; [reflexivity|].
  exfalso.
  destruct (disconnect_loop_map m m ss entry) as [Hin Hkeys].
  - rewrite Hloop. left. reflexivity.
  - apply Hkeys. unfold JsMap.keys. apply in_map. exact Hin.
Qed.

Lemma closeSub_lookup (i j : nat) (ss : list SubObj) :
  closeSub i ss !! j = if decide (i = j) then closeCalled <$> ss !! j else ss !! j.
Proof.
  unfold closeSub. destruct (decide (i = j)) as [->|Hne].
  - apply list_lookup_alter_eq.
  - apply list_lookup_alter_ne. exact Hne.
Qed.

Lemma disconnect_loop_other (todo m : JsMap.t nat) (ss : list SubObj) (j : nat) :
  ~ In j (JsMap.values todo) -> snd (disconnect_loop todo m ss) !! j = ss !! j.
Proof.
  revert m ss. induction todo as [|[id sub] todo IH]; intros m ss Hj; [reflexivity|].
  cbn [disconnect_loop]. rewrite IH.
  - rewrite closeSub_lookup. destruct (decide (sub = j)) as [->|_]; [|reflexivity].
    exfalso. apply Hj. left. reflexivity.
  - intros Hin. apply Hj. right. exact Hin.
Qed.

Lemma disconnect_loop_closes (todo m : JsMap.t nat) (ss : list SubObj) (j : nat) :
  List.NoDup (JsMap.values todo) -> In j (JsMap.values todo) ->
  snd (disconnect_loop todo m ss) !! j = closeCalled <$> ss !! j.
Proof.
  revert m ss. induction todo as [|[id sub] todo IH]; intros m ss Hnd Hj;
    [destruct Hj|].
  inversion Hnd as [|? ? Hsub Hrest]; subst. simpl in Hsub.
  cbn [disconnect_loop]. destruct Hj as [Hj|Hj].
  - simpl in Hj. subst j. rewrite disconnect_loop_other by exact Hsub.
    rewrite closeSub_lookup. destruct (decide (sub = sub)); [reflexivity|contradiction].
  - rewrite IH by assumption. rewrite closeSub_lookup.
    destruct (decide (sub = j)) as [->|_]; [contradiction|reflexivity].
Qed.

(** ** An invariant of the module *)

Section Invariant.
Context {D : Type}.
Implicit Types w : World D.

Lemma invariant_initial (d : D) : moduleInvariant (initialWorld d).
Proof.
  constructor; cbn.
  - reflexivity.
  - intros ? ? [].
  - constructor.
  - intros i o Hi. rewrite lookup_nil in Hi. discriminate.
Qed.

(** The invariant reads the handle, the map and the subscription objects
    only. *)
Lemma invariant_frame w w' :
  relay (state w') = relay (state w) ->
  subscriptions (state w') = subscriptions (state w) ->
  subs w' = subs w ->
  moduleInvariant w -> moduleInvariant w'.
Proof.
  intros Hr Hm Hs [H1 H2 H3 H4].
  constructor; rewrite ?Hr, ?Hm, ?Hs; assumption.
Qed.


Lemma invariant_connect_begin u w :
  moduleInvariant w -> moduleInvariant (fst (connect_begin u w)).
Proof.
  apply invariant_frame; unfold connect_begin;
    destruct (relay (state w)) eqn:Hr; cbn; rewrite ?Hr; reflexivity.
Qed.

Lemma invariant_connect_refused u err w :
  moduleInvariant w -> moduleInvariant (fst (connect_refused u err w)).
Proof.
  apply invariant_frame; unfold connect_refused, connect_enter;
    destruct (relay (state w)) eqn:Hr; cbn; rewrite ?Hr; reflexivity.
Qed.

Lemma invariant_connect_resume r o w :
  moduleInvariant w -> moduleInvariant (fst (connect_resume r o w)).
Proof.
  intros [H1 H2 H3 H4]. destruct o as [|err].
  - constructor; cbn; try assumption. discriminate.
  - constructor; cbn; assumption.
Qed.

Lemma closeSub_filters i (ss : list SubObj) :
  (forall j o, ss !! j = Some o -> s_filters o = [memoryFilter]) ->
  forall j o, closeSub i ss !! j = Some o -> s_filters o = [memoryFilter].
Proof.
  intros Hss j o. rewrite closeSub_lookup.
  destruct (decide (i = j)) as [_|_]; [|apply Hss].
  destruct (ss !! j) as [o'|] eqn:Hj; [|discriminate].
  intros [= <-]. apply (Hss j o' Hj).
Qed.

Lemma disconnect_loop_filters (todo m : JsMap.t nat) (ss : list SubObj) :
  (forall j o, ss !! j = Some o -> s_filters o = [memoryFilter]) ->
  forall j o, snd (disconnect_loop todo m ss) !! j = Some o ->
              s_filters o = [memoryFilter].
Proof.
  revert m ss. induction todo as [|[id sub] todo IH]; intros m ss Hss; [exact Hss|].
  cbn [disconnect_loop]. apply IH. apply closeSub_filters. exact Hss.
Qed.

Lemma disconnect_state w :
  relay (state (disconnect w)) = None
  /\ status (state (disconnect w)) = disconnected
  /\ (moduleInvariant w -> subscriptions (state (disconnect w)) = []).
Proof.
  unfold disconnect. destruct (relay (state w)) as [r|] eqn:Hr.
  - pose proof (disconnect_loop_empties (subscriptions (state w)) (subs w)) as Hm.
    destruct (disconnect_loop _ _ _) as [m ss]. cbn in *. auto.
  - cbn. rewrite Hr. split; [reflexivity|split; [reflexivity|]].
    intros [H1 _ _ _]. apply H1. exact Hr.
Qed.

Lemma invariant_disconnect w : moduleInvariant w -> moduleInvariant (disconnect w).
Proof.
  intros Hw. pose proof (disconnect_state w) as (Hr & _ & Hm).
  specialize (Hm Hw). constructor.
  - intros _. exact Hm.
  - rewrite Hm. intros ? ? [].
  - rewrite Hm. constructor.
  - destruct Hw as [_ _ _ H4]. unfold disconnect.
    destruct (relay (state w)) as [r|]; [|exact H4].
    pose proof (disconnect_loop_filters (subscriptions (state w))
                  (subscriptions (state w)) (subs w) H4) as Hf.
    destruct (disconnect_loop _ _ _) as [m ss]. exact Hf.
Qed.

Lemma invariant_subscribe now w :
  moduleInvariant w -> moduleInvariant (fst (subscribeMemoryEvents now w)).
Proof.
  intros Hw. unfold subscribeMemoryEvents.
  destruct (relay (state w)) as [r|] eqn:Hr; [|exact Hw].
  destruct Hw as [H1 H2 H3 H4].
  assert (Hfresh : ~ In (length (subs w)) (JsMap.values (subscriptions (state w)))).
  { intros Hin. apply in_map_iff in Hin as ([id i] & Hi & Hin). simpl in Hi. subst i.
    destruct (H2 _ _ Hin) as (o & Ho & _).
    apply lookup_lt_Some in Ho. lia. }
  constructor; cbn.
  - rewrite Hr. discriminate.
  - intros id i Hin. apply JsMap_set_In in Hin as [Heq|Hin].
    + injection Heq as _ ->. eexists. split.
      * apply list_lookup_middle. reflexivity.
      * reflexivity.
    + destruct (H2 _ _ Hin) as (o & Ho & Hc). exists o. split; [|exact Hc].
      rewrite lookup_app_l; [exact Ho|]. apply lookup_lt_Some in Ho. exact Ho.
  - apply JsMap_set_values; assumption.
  - intros i o Hi. apply lookup_app_Some in Hi as [Hi|[_ Hi]]; [apply (H4 i o Hi)|].
    apply list_lookup_singleton_Some in Hi as [_ <-]. reflexivity.
Qed.

Lemma invariant_unsubscribe subId w :
  moduleInvariant w -> moduleInvariant (unsubscribe subId w).
Proof.
  intros Hw. unfold unsubscribe.
  destruct (JsMap.get subId (subscriptions (state w))) as [sub|] eqn:Hget;
    [|exact Hw].
  destruct Hw as [H1 H2 H3 H4].
  apply JsMap_get_In in Hget.
  constructor; cbn.
  - intros Hr. rewrite (H1 Hr). reflexivity.
  - intros id i Hin. apply JsMap_delete_In in Hin as [Hin Hne]. simpl in Hne.
    destruct (H2 _ _ Hin) as (o & Ho & Hc). exists o. split; [|exact Hc].
    rewrite closeSub_lookup. destruct (decide (sub = i)) as [->|_]; [|exact Ho].
    exfalso. apply Hne. eapply values_injective; eassumption.
  - apply JsMap_delete_values. exact H3.
  - apply closeSub_filters. exact H4.
Qed.

Lemma invariant_exec (c : Call D) w : moduleInvariant w -> moduleInvariant (exec c w).
Proof.
  destruct c; cbn [exec].
  - apply invariant_frame; reflexivity.
  - apply invariant_frame; reflexivity.
  - apply invariant_connect_begin.
  - apply invariant_disconnect.
  - apply invariant_subscribe.
  - apply invariant_unsubscribe.
  - apply invariant_connect_resume.
  - apply invariant_frame; reflexivity.
  - apply invariant_connect_refused.
  - apply invariant_frame; reflexivity.
Qed.

Lemma reachable_invariant w : reachable w -> moduleInvariant w.
Proof.
  induction 1 as [d|w c _ IH _]; [apply invariant_initial|].
  apply invariant_exec. exact IH.
Qed.

End Invariant.

Lemma reachable_run {D : Type} (cs : list (Call D)) (w : World D) :
  reachable w -> runnable cs w = true -> reachable (run cs w).
Proof.
  revert w. induction cs as [|c cs IH]; intros w Hw Hcs; [exact Hw|].
  simpl in Hcs. apply andb_true_iff in Hcs as [Hc Hcs].
  simpl. apply IH; [|exact Hcs]. apply reachable_exec; assumption.
Qed.

Lemma subscribedWorld_reachable : reachable subscribedWorld.
Proof. apply reachable_run; [apply reachable_initial|reflexivity]. Defined.

(** From every state of the module, when [disconnect()] returns the handle
    is null, the subscription map is empty and the status is
    ['disconnected']; [close()] has been called exactly once on every
    subscription the map held (never before, once now) and on no other; and
    a second [disconnect()] changes neither the module state nor the
    library objects. *)
Theorem disconnect_postcondition {D : Type} (w : World D) :
  reachable w ->
  relay (state (disconnect w)) = None
  /\ subscriptions (state (disconnect w)) = []
  /\ status (state (disconnect w)) = disconnected
  /\ (forall id sub, In (id, sub) (subscriptions (state w)) ->
        exists o o', subs w !! sub = Some o /\ s_closeCalls o = 0%nat
                     /\ subs (disconnect w) !! sub = Some o'
                     /\ s_closeCalls o' = 1%nat)
  /\ (forall sub, ~ In sub (JsMap.values (subscriptions (state w))) ->
        subs (disconnect w) !! sub = subs w !! sub)
  /\ state (disconnect (disconnect w)) = state (disconnect w)
  /\ relays (disconnect (disconnect w)) = relays (disconnect w)
  /\ subs (disconnect (disconnect w)) = subs (disconnect w).
Proof.
  intros Hreach. pose proof (reachable_invariant w Hreach) as Hw.
  pose proof (disconnect_state w) as (Hr & Hst & Hm). specialize (Hm Hw).
  repeat split; try assumption.
  - intros id sub Hin. destruct Hw as [H1 H2 H3 _].
    destruct (H2 _ _ Hin) as (o & Ho & Hc).
    exists o, (closeCalled o). repeat split; [exact Ho|exact Hc| |simpl; rewrite Hc; reflexivity].
    unfold disconnect. destruct (relay (state w)) as [r|] eqn:Hrel.
    + pose proof (disconnect_loop_closes (subscriptions (state w))
                    (subscriptions (state w)) (subs w) sub H3) as Hloop.
      destruct (disconnect_loop _ _ _) as [m ss]. cbn in *.
      rewrite Hloop, Ho; [reflexivity|].
      unfold JsMap.values. apply (in_map snd) in Hin. exact Hin.
    + rewrite (H1 eq_refl) in Hin. destruct Hin.
  - intros sub Hsub. unfold disconnect.
    destruct (relay (state w)) as [r|]; [|reflexivity].
    pose proof (disconnect_loop_other (subscriptions (state w))
                  (subscriptions (state w)) (subs w) sub Hsub) as Hloop.
    destruct (disconnect_loop _ _ _) as [m ss]. exact Hloop.
  - unfold disconnect at 1. rewrite Hr. cbn.
    destruct (state (disconnect w)) as [u r s m n]. cbn in *. congruence.
  - unfold disconnect at 1. rewrite Hr. reflexivity.
  - unfold disconnect at 1. rewrite Hr. reflexivity.
Qed.

Lemma disconnect_postcondition_witness :
  reachable subscribedWorld
  /\ subscriptions (state subscribedWorld) = [(js "snow-mem-1700000000000", 0%nat)]
  /\ relay (state (disconnect subscribedWorld)) = None
  /\ subscriptions (state (disconnect subscribedWorld)) = [].
Proof.
  split; [exact subscribedWorld_reachable|].
  split; [reflexivity|].
  pose proof (disconnect_postcondition subscribedWorld subscribedWorld_reachable)
    as (Hr & Hm & _).
  split; assumption.
Defined.

(** C9 fails on the code.  [disconnect()] closes the subscriptions of the
    map, and the map does not hold every open subscription: after two calls
    of [subscribeMemoryEvents] within one millisecond both subscriptions are
    open (an event can arrive on either) and the map holds the second only.
    When [disconnect()] returns, the handle is null, the map is empty and
    the status is ['disconnected'], but [close()] was called on the second
    subscription only, never on the first; no event arrives on the first
    any more only because its connection is closed.  When the first
    subscription is on a connection the module no longer holds, it stays
    open after [disconnect()]: events keep arriving on it and are
    counted. *)
Theorem disconnect_misses_open_subscription :
  (reachable twiceSubscribed
   /\ delivers 0 topicEvent twiceSubscribed = true
   /\ delivers 1 topicEvent twiceSubscribed = true
   /\ subscriptions (state twiceSubscribed) = [(js "snow-mem-1700000000000", 1%nat)]
   /\ relay (state (disconnect twiceSubscribed)) = None
   /\ subscriptions (state (disconnect twiceSubscribed)) = []
   /\ status (state (disconnect twiceSubscribed)) = disconnected
   /\ map s_closeCalls (subs (disconnect twiceSubscribed)) = [0%nat; 1%nat]
   /\ delivers 0 topicEvent (disconnect twiceSubscribed) = false)
  /\ (reachable strandedSubscription
      /\ delivers 0 topicEvent strandedSubscription = true
      /\ relay (state (disconnect strandedSubscription)) = None
      /\ subscriptions (state (disconnect strandedSubscription)) = []
      /\ status (state (disconnect strandedSubscription)) = disconnected
      /\ map s_closeCalls (subs (disconnect strandedSubscription)) = [0%nat; 1%nat]
      /\ delivers 0 topicEvent (disconnect strandedSubscription) = true
      /\ eventCount (state (onevent topicEvent (disconnect strandedSubscription)))
         = eventCount (state strandedSubscription) + 1).
Proof.
  split; (split; [apply reachable_run; [apply reachable_initial|reflexivity]|]);
    vm_compute; repeat split; reflexivity.
Qed.

Lemma subscribe_open {D : Type} (now : Z) (w : World D) (r : nat) :
  relay (state w) = Some r ->
  relay (state (fst (subscribeMemoryEvents now w))) = Some r
  /\ subs (fst (subscribeMemoryEvents now w))
     = subs w ++ [{| s_relay := r; s_filters := [memoryFilter]; s_closeCalls := 0 |}]
  /\ subscriptions (state (fst (subscribeMemoryEvents now w)))
     = JsMap.set (js "snow-mem-" ++ String_of_number now) (length (subs w))
                 (subscriptions (state w)).
Proof.
  intros Hr. unfold subscribeMemoryEvents. rewrite Hr. cbn. auto.
Qed.

(** Two calls of [subscribeMemoryEvents] within one millisecond get the
    same id: the second subscription takes the place of the first in the
    map, and the first, on which [close()] was never called, is not closed
    by [disconnect()] either. *)
Theorem subscribe_same_millisecond_untracked {D : Type} (w : World D) (now : Z) (r : nat) :
  reachable w -> relay (state w) = Some r ->
  JsMap.get (js "snow-mem-" ++ String_of_number now)
            (subscriptions
               (state (fst (subscribeMemoryEvents now
                              (fst (subscribeMemoryEvents now w))))))
  = Some (S (length (subs w)))
  /\ JsMap.size (subscriptions
                   (state (fst (subscribeMemoryEvents now
                                  (fst (subscribeMemoryEvents now w))))))
     = JsMap.size (subscriptions (state (fst (subscribeMemoryEvents now w))))
  /\ subs (disconnect (fst (subscribeMemoryEvents now
                              (fst (subscribeMemoryEvents now w)))))
       !! length (subs w)
     = Some {| s_relay := r; s_filters := [memoryFilter]; s_closeCalls := 0 |}.
Proof.
  intros Hreach Hr. apply reachable_invariant in Hreach as [_ H2 _ _].
  destruct (subscribe_open now w r Hr) as (Hr1 & Hsubs1 & Hmap1).
  destruct (subscribe_open now _ r Hr1) as (Hr2 & Hsubs2 & Hmap2).
  set (w2 := fst (subscribeMemoryEvents now (fst (subscribeMemoryEvents now w)))) in *.
  rewrite Hmap2, Hmap1, Hsubs1, JsMap_set_set, length_app. cbn [length].
  replace (length (subs w) + 1)%nat with (S (length (subs w))) by lia.
  split; [apply JsMap_get_set|]. split.
  - apply JsMap_size_set.
  - unfold disconnect. rewrite Hr2.
    pose proof (disconnect_loop_other (subscriptions (state w2))
                  (subscriptions (state w2)) (subs w2) (length (subs w))) as Hloop.
    destruct (disconnect_loop _ _ _) as [m' ss']. cbn in *. rewrite Hloop.
    + rewrite Hsubs2, Hsubs1.
      rewrite lookup_app_l by (rewrite length_app; simpl; lia).
      apply list_lookup_middle. reflexivity.
    + rewrite Hmap2, Hmap1, Hsubs1, JsMap_set_set.
      intros Hin. apply in_map_iff in Hin as ([id i] & Hi & Hin). simpl in Hi. subst i.
      apply JsMap_set_In in Hin as [Heq|Hin].
      * injection Heq as _ Heq. rewrite length_app in Heq. simpl in Heq. lia.
      * destruct (H2 _ _ Hin) as (o & Ho & _). apply lookup_lt_Some in Ho. lia.
Qed.

Lemma subscribe_same_millisecond_untracked_witness :
  subs (disconnect (fst (subscribeMemoryEvents 1700000000000 subscribedWorld))) !! 0%nat
  = Some {| s_relay := 0; s_filters := [memoryFilter]; s_closeCalls := 0 |}.
Proof.
  pose proof (subscribe_same_millisecond_untracked
                (run [CallConnect (js "wss://relay.example"); Settle 0 Resolved]
                     (initialWorld tt))
                1700000000000 0%nat) as Hleak.
  apply Hleak.
  - apply reachable_run; [apply reachable_initial|reflexivity].
  - reflexivity.
Defined.

(** ** The memory subscription *)

Lemma memoryFilter_exact (e : Event) :
  matchFilter memoryFilter e = Z.eqb (kind e) 30078 && hasBarePrefixTag e.
Proof.
  unfold matchFilter, memoryFilter, hasBarePrefixTag. cbn [kinds hash_d existsb].
  rewrite orb_false_r. f_equal.
  induction (tags e) as [|tag rest IH]; [reflexivity|].
  cbn [existsb]. rewrite IH. f_equal.
  destruct tag as [|t [|v more]]; try reflexivity.
  cbn [tagMatches existsb]. rewrite orb_false_r. reflexivity.
Qed.

Lemma delivered_has_bare_prefix {D : Type} (w : World D) (sub : nat) (e : Event) :
  reachable w -> hasBarePrefixTag e = false -> delivers sub e w = false.
Proof.
  intros Hreach Hbare. apply reachable_invariant in Hreach as [_ _ _ Hf].
  unfold delivers. destruct (subs w !! sub) as [s|] eqn:Hs; [|reflexivity].
  rewrite (Hf _ _ Hs). cbn [matchFilters existsb].
  rewrite memoryFilter_exact, Hbare, !andb_false_r. reflexivity.
Qed.

(** C6 fails on the code.  The library compares a tag filter with the tag's
    value exactly, and the filter of the memory subscription names the bare
    prefix [snow:memory:]: an event matches it when its kind is 30078 and one
    of its [d] tags is that prefix and nothing more.  So in no state of the
    module is an event delivered that has no such tag: a memory record,
    whose key [snow:memory:<topic>] names a topic, never reaches the
    listeners.  And an event keyed outside the memory namespace that
    carries the bare prefix in a second [d] tag is delivered, counted and
    logged. *)
Theorem memory_filter_exact_match :
  (forall e, matchFilter memoryFilter e = Z.eqb (kind e) 30078 && hasBarePrefixTag e)
  /\ (forall (D : Type) (w : World D) (sub : nat) (e : Event),
        reachable w -> hasBarePrefixTag e = false -> delivers sub e w = false)
  /\ (dKey memoryRecord = Some (js "snow:memory:relay-setup")
      /\ keyInMemoryNamespace memoryRecord = true
      /\ delivers 0 memoryRecord consoleWorld = false)
  /\ (dKey strayEvent = Some (js "snow:config:owner")
      /\ keyInMemoryNamespace strayEvent = false
      /\ delivers 0 strayEvent consoleWorld = true
      /\ eventCount (state (onevent strayEvent consoleWorld)) = 1
      /\ logEntries (ui (onevent strayEvent consoleWorld))
         = [@logEntryOf sampleEngine strayEvent]).
Proof.
  split; [exact memoryFilter_exact|].
  split; [intros D w sub e; apply delivered_has_bare_prefix|].
  vm_compute. repeat split; reflexivity.
Qed.

(** ** Connections *)

(** C5 fails on the code.  A second [connect] while the first is in flight
    starts a second connection: both are in flight together, both open, and
    the module keeps the handle of the second only, so the first is never
    closed.  The page reaches the same state with its buttons enabled at
    every click. *)
Theorem connect_in_flight_duplicates :
  runnable racingCalls (initialWorld tt) = true
  /\ length (connectionsInFlight (run (firstn 2 racingCalls) (initialWorld tt))) = 2%nat
  /\ length (openConnections (run racingCalls (initialWorld tt))) = 2%nat
  /\ relay (state (run racingCalls (initialWorld tt))) = Some 1%nat
  /\ btnDisconnect_disabled (ui (fst (btnConnect_click (@init sampleEngine (initialWorld loadedPage)))))
     = false
  /\ btnConnect_disabled
       (ui (btnDisconnect_click (fst (btnConnect_click (@init sampleEngine (initialWorld loadedPage))))))
     = false
  /\ length (openConnections racingClicks) = 2%nat
  /\ relay (state racingClicks) = Some 1%nat.
Proof. vm_compute. repeat split; reflexivity. Qed.

(** A connection that is already held is closed before [new Relay(url)] is
    run: at the [try] it is closed and no object has been created yet; when
    the constructor returns, the new object is added to that state; and when
    the constructor throws, the held connection is closed all the same and
    no object was created. *)
Theorem connect_closes_held {D : Type} (u err : jsstring) (w : World D) (r : nat)
    (o : RelayObj) :
  relay (state w) = Some r -> relays w !! r = Some o ->
  relays (connect_enter u w) = closeRelay r (relays w)
  /\ relays (connect_enter u w) !! r = Some (closed o)
  /\ length (relays (connect_enter u w)) = length (relays w)
  /\ fst (connect_begin u w)
     = withRelays (relays (connect_enter u w) ++ [{| r_url := u; r_phase := Connecting |}])
                  (connect_enter u w)
  /\ relays (fst (connect_begin u w)) !! r = Some (closed o)
  /\ relays (fst (connect_refused u err w)) = relays (connect_enter u w)
  /\ relays (fst (connect_refused u err w)) !! r = Some (closed o).
Proof.
  intros Hr Ho.
  assert (Henter : relays (connect_enter u w) = closeRelay r (relays w)).
  { unfold connect_enter. rewrite Hr. reflexivity. }
  assert (Hclosed : closeRelay r (relays w) !! r = Some (closed o)).
  { unfold closeRelay. rewrite list_lookup_alter_eq, Ho. reflexivity. }
  assert (Hlen : length (closeRelay r (relays w)) = length (relays w)).
  { unfold closeRelay. apply length_alter. }
  split; [exact Henter|]. split; [rewrite Henter; exact Hclosed|].
  split; [rewrite Henter; exact Hlen|]. split; [reflexivity|].
  split.
  - change (relays (fst (connect_begin u w)))
      with (relays (connect_enter u w) ++ [{| r_url := u; r_phase := Connecting |}]).
    rewrite Henter, lookup_app_l; [exact Hclosed|].
    rewrite Hlen. apply lookup_lt_Some in Ho. exact Ho.
  - change (relays (fst (connect_refused u err w))) with (relays (connect_enter u w)).
    split; [reflexivity|]. rewrite Henter. exact Hclosed.
Qed.

Lemma connect_closes_held_witness :
  relays (fst (connect_begin (js "wss://b.example") subscribedWorld)) !! 0%nat
  = Some {| r_url := js "wss://relay.example"; r_phase := Closed |}
  /\ relays (fst (connect_refused (js "not a url") (js "Error: Invalid URL: not a url")
                   subscribedWorld))
     = [{| r_url := js "wss://relay.example"; r_phase := Closed |}].
Proof.
  destruct (connect_closes_held (js "wss://b.example") (js "Error") subscribedWorld 0
              {| r_url := js "wss://relay.example"; r_phase := Open |}
              eq_refl eq_refl) as (_ & _ & _ & _ & Hbegin & _).
  split; [exact Hbegin|]. reflexivity.
Defined.

(** The failure of a connection attempt reaches the caller of [connect]:
    the claim C4 is false on the code. *)
Lemma connect_failure_reaches_caller :
  snd (connect_resume 0 (Rejected (js "Error: connection timed out"))
         (fst (connect_begin (js "wss://relay.example") (initialWorld tt))))
  = inr (js "Error: connection timed out").
Proof. reflexivity. Qed.

(** C4, amended.  When the connection attempt fails, [connect] sets the
    status to ['disconnected'], leaves the handle, the subscriptions and the
    event count as they were, and throws the error to its caller; the
    Connect button's handler catches it and shows it.  Nothing is read from
    a cache and nothing is flagged stale. *)
Theorem connect_failure_rethrown {D : Type} (w : World D) (page : World Dom)
    (r : nat) (err : jsstring) :
  snd (connect_resume r (Rejected err) w) = inr err
  /\ status (state (fst (connect_resume r (Rejected err) w))) = disconnected
  /\ relay (state (fst (connect_resume r (Rejected err) w))) = relay (state w)
  /\ subscriptions (state (fst (connect_resume r (Rejected err) w)))
     = subscriptions (state w)
  /\ eventCount (state (fst (connect_resume r (Rejected err) w))) = eventCount (state w)
  /\ relayInfo (ui (btnConnect_settled r (Rejected err) page))
     = js "Connection failed: " ++ err.
Proof. repeat split. Qed.

(** ** Events on the memory subscription *)

(** A malformed event is counted, handed to the listeners and shown in the
    log: the claim C3 is false on the code. *)
Lemma malformed_event_is_applied :
  malformed brokenEvent = true
  /\ delivers 0 brokenEvent consoleWorld = true
  /\ eventCount (state consoleWorld) = 0
  /\ eventCount (state (onevent brokenEvent consoleWorld)) = 1
  /\ logEntries (ui consoleWorld) = []
  /\ logEntries (ui (onevent brokenEvent consoleWorld))
     = [@logEntryOf sampleEngine brokenEvent].
Proof. vm_compute. repeat split; reflexivity. Qed.

(** C3, amended.  Every event handed to the [onevent] callback of the
    memory subscription, malformed or not, is processed without a check and
    never dropped: the event count grows by one, the rest of the module
    state and the library objects stay as they were, every registered
    listener is called with the event in the order of registration, and the
    log listener of the console shows the new count and puts an entry for
    the event at the front of the log.  No diagnostic is produced. *)
Theorem onevent_applies_every_event `{Engine} (w : World Dom) (e : Event) :
  eventCount (state (onevent e w)) = eventCount (state w) + 1
  /\ url (state (onevent e w)) = url (state w)
  /\ relay (state (onevent e w)) = relay (state w)
  /\ status (state (onevent e w)) = status (state w)
  /\ subscriptions (state (onevent e w)) = subscriptions (state w)
  /\ relays (onevent e w) = relays w
  /\ subs (onevent e w) = subs w
  /\ ui (onevent e w)
     = fold_left (fun d fn => fn e (state (onevent e w)) d) (eventListeners w) (ui w)
  /\ (forall st d,
        eventCountEl (eventListener e st d) = String_of_number (eventCount st)
        /\ logEntries (eventListener e st d)
           = firstn 200 (logEntryOf e :: logEntries d)).
Proof.
  repeat split. apply eventListener_log.
Qed.

(** ** The event inspector *)

(** An input of blanks is no JSON text, and the inspector shows no error
    for it: the earlier result stays.  The claim C7 is false on the code. *)
Lemma blank_input_shows_no_error :
  JSON_parse (eventJsonInput (ui staleInspector)) = None
  /\ inspectOutput (ui (@btnInspect_click sampleEngine staleInspector))
     = InnerHTML (js "<div>earlier result</div>").
Proof. vm_compute. split; reflexivity. Qed.

(** C7, amended.  For every input of the inspector that, once trimmed, is
    not empty and is no JSON text, the handler shows [Parse error: ...] as
    the text of the output pane and changes nothing else: the module state,
    the listeners, the library objects and every other element of the page
    (event count, subscription list, log) are as before.  For an input that
    is empty once trimmed the handler changes nothing at all. *)
Theorem inspect_reports_parse_error `{Engine} (w : World Dom) :
  (trim (eventJsonInput (ui w)) <> [] ->
   JSON_parse (trim (eventJsonInput (ui w))) = None ->
   btnInspect_click w
   = withUi (setInspectOutput
               (TextContent (js "Parse error: "
                             ++ syntaxErrorText (trim (eventJsonInput (ui w)))))
               (ui w)) w)
  /\ (trim (eventJsonInput (ui w)) = [] -> btnInspect_click w = w).
Proof.
  unfold btnInspect_click. split.
  - intros Hraw Hparse. rewrite Hparse.
    destruct (trim (eventJsonInput (ui w))); [contradiction|reflexivity].
  - intros ->. reflexivity.
Qed.

Lemma inspect_reports_parse_error_witness :
  inspectOutput (ui (@btnInspect_click sampleEngine garbledInspector))
  = TextContent (js "Parse error: SyntaxError")
  /\ @btnInspect_click sampleEngine staleInspector = staleInspector.
Proof.
  destruct (@inspect_reports_parse_error sampleEngine garbledInspector) as [Herr _].
  destruct (@inspect_reports_parse_error sampleEngine staleInspector) as [_ Hblank].
  split.
  - rewrite Herr; [reflexivity|discriminate|reflexivity].
  - apply Hblank. reflexivity.
Defined.

(** ** Ranking *)

Module RankingFacts.
Import SnowMemory.

Lemma compareRank_Lt (a b : option nat) : compareRank a b = Lt <-> rankBefore a b.
Proof.
  destruct a as [x|], b as [y|]; simpl; try tauto; try (split; [discriminate|tauto]).
  apply Nat.compare_lt_iff.
Qed.

Lemma compareRank_Eq (a b : option nat) : compareRank a b = Eq <-> a = b.
Proof.
  destruct a as [x|], b as [y|]; simpl; try (split; discriminate); try tauto.
  rewrite Nat.compare_eq_iff. split; congruence.
Qed.

Lemma compareRank_Gt (a b : option nat) : compareRank a b = Gt <-> rankBefore b a.
Proof.
  destruct a as [x|], b as [y|]; simpl; try tauto; try (split; [discriminate|tauto]).
  apply Nat.compare_gt_iff.
Qed.

Lemma rankBefore_trans (a b c : option nat) :
  rankBefore a b -> rankBefore b c -> rankBefore a c.
Proof.
  destruct a as [x|], b as [y|], c as [z|]; simpl; try tauto. lia.
Qed.

(** The comparison puts [a] first or ties exactly when [a] ranks before [b]
    in the spec's words. *)
Lemma compareResults_le (a b : SearchResult) :
  compareResults a b <> Gt <-> ranksBefore a b.
Proof.
  unfold compareResults, ranksBefore, thenBy.
  destruct (Qcompare_spec (effective_score b) (effective_score a)) as [Heq|Hlt|Hgt].
  - destruct (compareRank (source_rank a) (source_rank b)) eqn:Hs.
    + apply compareRank_Eq in Hs.
      destruct (compareRank (model_tier a) (model_tier b)) eqn:Hm.
      * apply compareRank_Eq in Hm. rewrite Z.compare_le_iff.
        split.
        -- intros Hc. right. split; [symmetry; exact Heq|]. right.
           split; [exact Hs|]. right. split; [exact Hm|exact Hc].
        -- intros [Hlt|(_ & [Hr|(_ & [Hr|(_ & Hc)])])].
           ++ rewrite Heq in Hlt. exfalso. apply (Qlt_irrefl _ Hlt).
           ++ rewrite Hs in Hr. destruct (source_rank b); simpl in Hr; [lia|tauto].
           ++ rewrite Hm in Hr. destruct (model_tier b); simpl in Hr; [lia|tauto].
           ++ exact Hc.
      * apply compareRank_Lt in Hm. split; [|discriminate].
        intros _. right. split; [symmetry; exact Heq|]. right.
        split; [exact Hs|]. left. exact Hm.
      * apply compareRank_Gt in Hm. split; [congruence|].
        intros [Hlt|(_ & [Hr|(_ & [Hr|(Hmeq & _)])])]; exfalso.
        -- rewrite Heq in Hlt. apply (Qlt_irrefl _ Hlt).
        -- rewrite Hs in Hr. destruct (source_rank b); simpl in Hr; [lia|tauto].
        -- pose proof (rankBefore_trans _ _ _ Hr Hm) as Hrr.
           destruct (model_tier a); simpl in Hrr; [lia|tauto].
        -- rewrite Hmeq in Hm. destruct (model_tier b); simpl in Hm; [lia|tauto].
    + apply compareRank_Lt in Hs. split; [|discriminate].
      intros _. right. split; [symmetry; exact Heq|]. left. exact Hs.
    + apply compareRank_Gt in Hs. split; [congruence|].
      intros [Hlt|(_ & [Hr|(Hseq & _)])]; exfalso.
      * rewrite Heq in Hlt. apply (Qlt_irrefl _ Hlt).
      * pose proof (rankBefore_trans _ _ _ Hr Hs) as Hrr.
        destruct (source_rank a); simpl in Hrr; [lia|tauto].
      * rewrite Hseq in Hs. destruct (source_rank b); simpl in Hs; [lia|tauto].
  - split; [|discriminate]. intros _. left. exact Hlt.
  - split; [congruence|]. intros [Hlt|(Heq & _)]; exfalso.
    + apply (Qlt_irrefl (effective_score a)). eapply Qlt_trans; eassumption.
    + rewrite Heq in Hgt. apply (Qlt_irrefl _ Hgt).
Qed.

Lemma compareRank_opp (a b : option nat) :
  compareRank b a = CompOpp (compareRank a b).
Proof.
  destruct a as [x|], b as [y|]; simpl; try reflexivity. apply Nat.compare_antisym.
Qed.

Lemma compareResults_opp (a b : SearchResult) :
  compareResults b a = CompOpp (compareResults a b).
Proof.
  unfold compareResults, thenBy.
  rewrite <- (Qcompare_antisym (effective_score b) (effective_score a)).
  rewrite (compareRank_opp (source_rank a) (source_rank b)).
  rewrite (compareRank_opp (model_tier a) (model_tier b)).
  rewrite (Z.compare_antisym (created_at (memory b)) (created_at (memory a))).
  destruct (effective_score b ?= effective_score a)%Q; simpl; try reflexivity.
  destruct (compareRank (source_rank a) (source_rank b)); simpl; try reflexivity.
  destruct (compareRank (model_tier a) (model_tier b)); simpl; reflexivity.
Qed.

(** The order is total. *)
Lemma ranksBefore_total (a b : SearchResult) :
  compareResults a b = Gt -> ranksBefore b a.
Proof.
  intros Hgt. apply compareResults_le. rewrite compareResults_opp, Hgt. discriminate.
Qed.


Lemma ranksBefore_trans (a b c : SearchResult) :
  ranksBefore a b -> ranksBefore b c -> ranksBefore a c.
Proof.
  unfold ranksBefore.
  intros [Hab|(Eab & Hab)] [Hbc|(Ebc & Hbc)].
  - left. eapply Qlt_trans; eassumption.
  - left. rewrite <- Ebc. exact Hab.
  - left. rewrite Eab. exact Hbc.
  - right. split; [rewrite Eab; exact Ebc|].
    destruct Hab as [Hab|(Sab & Hab)], Hbc as [Hbc|(Sbc & Hbc)].
    + left. eapply rankBefore_trans; eassumption.
    + left. rewrite <- Sbc. exact Hab.
    + left. rewrite Sab. exact Hbc.
    + right. split; [congruence|].
      destruct Hab as [Hab|(Mab & Hab)], Hbc as [Hbc|(Mbc & Hbc)].
      * left. eapply rankBefore_trans; eassumption.
      * left. rewrite <- Mbc. exact Hab.
      * left. rewrite Mab. exact Hbc.
      * right. split; [congruence|lia].
Qed.

Lemma insertResult_perm (x : SearchResult) (l : list SearchResult) :
  Permutation (insertResult x l) (x :: l).
Proof.
  induction l as [|y l IH]; simpl; [reflexivity|].
  destruct (compareResults x y); try reflexivity.
  rewrite IH. apply perm_swap.
Qed.

Lemma sortResults_perm (l : list SearchResult) : Permutation (sortResults l) l.
Proof.
  induction l as [|x l IH]; simpl; [reflexivity|].
  rewrite insertResult_perm, IH. reflexivity.
Qed.

Lemma insertResult_sorted (x : SearchResult) (l : list SearchResult) :
  StronglySorted ranksBefore l -> StronglySorted ranksBefore (insertResult x l).
Proof.
  induction l as [|y l IH]; intros Hl; simpl.
  - constructor; constructor.
  - inversion Hl as [|? ? Hsorted Hy]; subst.
    destruct (compareResults x y) eqn:Hxy.
    + assert (Hle : ranksBefore x y) by (apply compareResults_le; congruence).
      constructor; [exact Hl|]. constructor; [exact Hle|].
      eapply List.Forall_impl; [|exact Hy].
      intros z Hz. eapply ranksBefore_trans; eassumption.
    + assert (Hle : ranksBefore x y) by (apply compareResults_le; congruence).
      constructor; [exact Hl|]. constructor; [exact Hle|].
      eapply List.Forall_impl; [|exact Hy].
      intros z Hz. eapply ranksBefore_trans; eassumption.
    + constructor; [apply IH, Hsorted|].
      eapply Permutation_Forall; [symmetry; apply insertResult_perm|].
      constructor; [apply ranksBefore_total, Hxy|exact Hy].
Qed.

Lemma sortResults_sorted (l : list SearchResult) :
  StronglySorted ranksBefore (sortResults l).
Proof.
  induction l as [|x l IH]; simpl; [constructor|].
  apply insertResult_sorted, IH.
Qed.

(** C1.  Every result [rank_memories] returns has the trust weight of its
    source and an effective score that is its relevance times that weight;
    the results are the scored candidates, ordered so that whenever one
    stands before another it has the higher effective score or, on a tie,
    the lower source rank (unranked last), then the lower model tier
    (unranked last), then the later creation time; and the list is a
    function of the inputs alone. *)
Theorem rank_memories_ordered (prefs : list SourcePreference) (table : ModelTierTable)
    (defaultWeight : Q) (candidates : list (Memory * Q)) :
  Forall (fun r => trust_weight r = trustWeightOf prefs defaultWeight (memory r)
                   /\ effective_score r = (relevance r * trust_weight r)%Q)
         (rank_memories prefs table defaultWeight candidates)
  /\ Permutation (rank_memories prefs table defaultWeight candidates)
                 (map (score prefs table defaultWeight) candidates)
  /\ StronglySorted ranksBefore (rank_memories prefs table defaultWeight candidates)
  /\ (forall prefs' table' defaultWeight' candidates',
        prefs' = prefs -> table' = table -> defaultWeight' = defaultWeight ->
        candidates' = candidates ->
        rank_memories prefs' table' defaultWeight' candidates'
        = rank_memories prefs table defaultWeight candidates).
Proof.
  unfold rank_memories. split; [|split; [|split]].
  - eapply Permutation_Forall; [symmetry; apply sortResults_perm|].
    apply List.Forall_forall. intros r Hr.
    apply in_map_iff in Hr as (c & <- & _). split; reflexivity.
  - apply sortResults_perm.
  - apply sortResults_sorted.
  - intros ? ? ? ? -> -> -> ->. reflexivity.
Qed.

End RankingFacts.

Lemma rank_memories_ordered_witness :
  map (fun r => SnowMemory.source (SnowMemory.memory r))
      (SnowMemory.rank_memories samplePrefs [] 0 sampleCandidates)
  = [js "npubA"; js "npubB"]
  /\ StronglySorted SnowMemory.ranksBefore
       (SnowMemory.rank_memories samplePrefs [] 0 sampleCandidates)
  /\ SnowMemory.rank_memories samplePrefs [] 0 sampleCandidates
     = SnowMemory.rank_memories samplePrefs [] 0 sampleCandidates.
Proof.
  destruct (RankingFacts.rank_memories_ordered samplePrefs [] 0 sampleCandidates)
    as (_ & _ & Hsorted & Hsame).
  split; [reflexivity|]. split; [exact Hsorted|].
  apply Hsame; reflexivity.
Defined.

(** ** Conflict detection *)

Module ConflictFacts.
Import SnowMemory.

Section WithNormalize.
Variable normalize : jsstring -> jsstring.

Lemma groupOf_In (ms : list Memory) (t : jsstring) (m : Memory) :
  In m (groupOf ms t) <-> In m ms /\ topic m = t.
Proof.
  unfold groupOf. rewrite List.filter_In, strictEq_spec. reflexivity.
Qed.

Lemma disagree_spec (a b : Memory) :
  disagree normalize a b = true
  <-> source a <> source b /\ normalize (detail a) <> normalize (detail b).
Proof.
  unfold disagree. rewrite andb_true_iff, !negb_true_iff, !strictEq_false.
  reflexivity.
Qed.

Lemma isConflict_spec (members : list Memory) :
  isConflict normalize members = true
  <-> exists a b, In a members /\ In b members
                  /\ source a <> source b
                  /\ normalize (detail a) <> normalize (detail b).
Proof.
  unfold isConflict. rewrite existsb_exists. split.
  - intros (a & Ha & Hb). apply existsb_exists in Hb as (b & Hb & Hd).
    apply disagree_spec in Hd. exists a, b. tauto.
  - intros (a & b & Ha & Hb & Hd). exists a. split; [exact Ha|].
    apply existsb_exists. exists b. split; [exact Hb|].
    apply disagree_spec. exact Hd.
Qed.

Lemma topicsOf_In (seen : list jsstring) (ms : list Memory) (t : jsstring) :
  In t (topicsOf seen ms) <-> (exists m, In m ms /\ topic m = t) /\ ~ In t seen.
Proof.
  revert seen. induction ms as [|m ms IH]; intros seen; simpl.
  - split; [intros []|intros [(m & [] & _) _]].
  - destruct (existsb (strictEq (topic m)) seen) eqn:Hseen.
    + rewrite IH. apply existsb_exists in Hseen as (t' & Hin & Heq).
      apply strictEq_spec in Heq. subst t'.
      split.
      * intros [(m' & Hm' & Ht) Hn]. split; [|exact Hn]. exists m'. tauto.
      * intros [(m' & [<-|Hm'] & Ht) Hn]; [subst t; contradiction|].
        split; [|exact Hn]. exists m'. tauto.
    + assert (Hnot : ~ In (topic m) seen).
      { intros Hin. apply not_true_iff_false in Hseen. apply Hseen.
        apply existsb_exists. exists (topic m). split; [exact Hin|apply strictEq_refl]. }
      simpl. rewrite IH. split.
      * intros [<-|[(m' & Hm' & Ht) Hn]].
        -- split; [exists m; tauto|exact Hnot].
        -- split; [exists m'; tauto|]. simpl in Hn. tauto.
      * intros [(m' & [<-|Hm'] & Ht) Hn]; [left; exact Ht|].
        destruct (decide (topic m = t)) as [Heq|Hne]; [left; exact Heq|].
        right. split; [exists m'; tauto|]. simpl. tauto.
Qed.

Lemma detect_conflicts_In (ms : list Memory) (c : Conflict) :
  In c (detect_conflicts normalize ms)
  <-> c_members c = groupOf ms (c_topic c)
      /\ isConflict normalize (c_members c) = true
      /\ exists m, In m ms /\ topic m = c_topic c.
Proof.
  unfold detect_conflicts. rewrite in_map_iff. split.
  - intros (t & <- & Ht). apply List.filter_In in Ht as [Ht Hc].
    apply topicsOf_In in Ht as [Hm _]. simpl. auto.
  - intros (Hmem & Hc & Hm). exists (c_topic c). split.
    + destruct c as [t members]. simpl in *. congruence.
    + apply List.filter_In. split.
      * apply topicsOf_In. split; [exact Hm|intros []].
      * rewrite <- Hmem. exact Hc.
Qed.

(** C2.  A topic is reported as a conflict exactly when two of its records
    come from distinct sources and have details that differ after
    normalization; a reported conflict holds all the records of its topic;
    and a topic whose records all have the same detail is not reported,
    however many sources wrote them. *)
Theorem detect_conflicts_exact (memories : list Memory) (t : jsstring) :
  ((exists c, In c (detect_conflicts normalize memories) /\ c_topic c = t)
   <-> (exists a b, In a memories /\ In b memories
                    /\ topic a = t /\ topic b = t
                    /\ source a <> source b
                    /\ normalize (detail a) <> normalize (detail b)))
  /\ (forall c, In c (detect_conflicts normalize memories) ->
                c_members c = groupOf memories (c_topic c))
  /\ ((forall a b, In a memories -> In b memories -> topic a = t -> topic b = t ->
                   detail a = detail b) ->
      ~ exists c, In c (detect_conflicts normalize memories) /\ c_topic c = t).
Proof.
  assert (Hiff : (exists c, In c (detect_conflicts normalize memories) /\ c_topic c = t)
                 <-> (exists a b, In a memories /\ In b memories
                                  /\ topic a = t /\ topic b = t
                                  /\ source a <> source b
                                  /\ normalize (detail a) <> normalize (detail b))).
  { split.
    - intros (c & Hc & <-). apply detect_conflicts_In in Hc as (Hmem & Hconf & _).
      rewrite Hmem in Hconf. apply isConflict_spec in Hconf as (a & b & Ha & Hb & Hd).
      apply groupOf_In in Ha as [Ha Hta], Hb as [Hb Htb].
      exists a, b. tauto.
    - intros (a & b & Ha & Hb & Hta & Htb & Hs & Hd).
      exists {| c_topic := t; c_members := groupOf memories t |}.
      split; [|reflexivity]. apply detect_conflicts_In. simpl.
      split; [reflexivity|]. split; [|exists a; tauto].
      apply isConflict_spec. exists a, b.
      rewrite !groupOf_In. tauto. }
  split; [exact Hiff|split].
  - intros c Hc. apply detect_conflicts_In in Hc. tauto.
  - intros Hsame Hex. apply Hiff in Hex as (a & b & Ha & Hb & Hta & Htb & _ & Hd).
    apply Hd. rewrite (Hsame a b Ha Hb Hta Htb). reflexivity.
Qed.

End WithNormalize.

End ConflictFacts.

Lemma detect_conflicts_exact_witness :
  map SnowMemory.c_topic
      (SnowMemory.detect_conflicts keepDetail (map fst sampleCandidates))
  = [js "relay-setup"]
  /\ exists c, In c (SnowMemory.detect_conflicts keepDetail (map fst sampleCandidates))
               /\ SnowMemory.c_topic c = js "relay-setup".
Proof.
  split; [reflexivity|].
  apply (ConflictFacts.detect_conflicts_exact keepDetail (map fst sampleCandidates)
           (js "relay-setup")).
  exists (sampleMemory "npubB" "relay-setup" "use port 7777"),
         (sampleMemory "npubA" "relay-setup" "use port 4848").
  repeat split; try (simpl; tauto); discriminate.
Defined.

(** * Further properties of the code *)

(** ** Subscribing and unsubscribing *)

Lemma JsMap_get_delete {V : Type} (k : jsstring) (m : JsMap.t V) :
  JsMap.get k (JsMap.delete k m) = None.
Proof.
  unfold JsMap.get, JsMap.delete. induction m as [|x m IH]; simpl; [reflexivity|].
  destruct (JsMap.keyEq k x) eqn:Hk; simpl; [exact IH|].
  rewrite Hk. exact IH.
Qed.

Lemma JsMap_get_delete_other {V : Type} (k k' : jsstring) (m : JsMap.t V) :
  k' <> k -> JsMap.get k' (JsMap.delete k m) = JsMap.get k' m.
Proof.
  intros Hne. unfold JsMap.get, JsMap.delete.
  induction m as [|x m IH]; simpl; [reflexivity|].
  destruct (JsMap.keyEq k x) eqn:Hk; simpl.
  - destruct (JsMap.keyEq k' x) eqn:Hk'; [|exact IH].
    unfold JsMap.keyEq in Hk, Hk'. apply strictEq_spec in Hk, Hk'. congruence.
  - destruct (JsMap.keyEq k' x); [reflexivity|exact IH].
Qed.

Lemma JsMap_delete_set_fresh {V : Type} (k : jsstring) (v : V) (m : JsMap.t V) :
  JsMap.get k m = None -> JsMap.delete k (JsMap.set k v m) = m.
Proof.
  unfold JsMap.get, JsMap.delete. induction m as [|x m IH]; simpl.
  - intros _. unfold JsMap.keyEq. simpl. rewrite strictEq_refl. reflexivity.
  - destruct (JsMap.keyEq k x) eqn:Hk; simpl; [discriminate|].
    intros Hget. rewrite Hk. simpl. rewrite (IH Hget). reflexivity.
Qed.

Lemma unsubscribe_map {D : Type} (w : World D) (subId : jsstring) (sub : nat) :
  JsMap.get subId (subscriptions (state w)) = Some sub ->
  subscriptions (state (unsubscribe subId w))
  = JsMap.delete subId (subscriptions (state w)).
Proof. unfold unsubscribe. intros ->. reflexivity. Qed.

(** [unsubscribe] of an id the map does not hold changes nothing; of an id
    it holds, it removes that entry and no other, calls [close()] once on
    that subscription and on no other, and leaves the handle, the status
    and the event count alone. *)
Theorem unsubscribe_removes_one {D : Type} (w : World D) (subId : jsstring) :
  (JsMap.get subId (subscriptions (state w)) = None -> unsubscribe subId w = w)
  /\ (forall sub, JsMap.get subId (subscriptions (state w)) = Some sub ->
        JsMap.get subId (subscriptions (state (unsubscribe subId w))) = None
        /\ (forall k, k <> subId ->
              JsMap.get k (subscriptions (state (unsubscribe subId w)))
              = JsMap.get k (subscriptions (state w)))
        /\ subs (unsubscribe subId w) !! sub = closeCalled <$> subs w !! sub
        /\ (forall j, j <> sub -> subs (unsubscribe subId w) !! j = subs w !! j)
        /\ relay (state (unsubscribe subId w)) = relay (state w)
        /\ status (state (unsubscribe subId w)) = status (state w)
        /\ eventCount (state (unsubscribe subId w)) = eventCount (state w)
        /\ relays (unsubscribe subId w) = relays w
        /\ ui (unsubscribe subId w) = ui w).
Proof.
  unfold unsubscribe. split.
  - intros ->. reflexivity.
  - intros sub ->. cbn. repeat split.
    + apply JsMap_get_delete.
    + intros k Hk. apply JsMap_get_delete_other. exact Hk.
    + rewrite closeSub_lookup. destruct (decide (sub = sub)); [reflexivity|contradiction].
    + intros j Hj. rewrite closeSub_lookup.
      destruct (decide (sub = j)); [congruence|reflexivity].
Qed.

Lemma unsubscribe_removes_one_witness :
  unsubscribe (js "snow-mem-0") subscribedWorld = subscribedWorld
  /\ subscriptions (state (unsubscribe (js "snow-mem-1700000000000") subscribedWorld)) = []
  /\ JsMap.get (js "snow-mem-1700000000000")
       (subscriptions (state (unsubscribe (js "snow-mem-1700000000000") subscribedWorld)))
     = None.
Proof.
  destruct (unsubscribe_removes_one subscribedWorld (js "snow-mem-0")) as [Hmiss _].
  destruct (unsubscribe_removes_one subscribedWorld (js "snow-mem-1700000000000"))
    as [_ Hhit].
  split; [apply Hmiss; reflexivity|]. split; [reflexivity|].
  apply (Hhit 0%nat). reflexivity.
Defined.

(** With a connection held, [subscribeMemoryEvents] returns the id
    [snow-mem-<now>], under which the map then holds the new subscription;
    when the id was not in use, unsubscribing it gives back the map as it
    was, with [close()] called once on the new subscription. *)
Theorem subscribe_then_unsubscribe {D : Type} (w : World D) (now : Z) (r : nat) :
  relay (state w) = Some r ->
  snd (subscribeMemoryEvents now w) = Some (js "snow-mem-" ++ String_of_number now)
  /\ JsMap.get (js "snow-mem-" ++ String_of_number now)
       (subscriptions (state (fst (subscribeMemoryEvents now w))))
     = Some (length (subs w))
  /\ (JsMap.get (js "snow-mem-" ++ String_of_number now) (subscriptions (state w)) = None ->
      subscriptions (state (unsubscribe (js "snow-mem-" ++ String_of_number now)
                              (fst (subscribeMemoryEvents now w))))
      = subscriptions (state w)
      /\ subs (unsubscribe (js "snow-mem-" ++ String_of_number now)
                 (fst (subscribeMemoryEvents now w))) !! length (subs w)
         = Some {| s_relay := r; s_filters := [memoryFilter]; s_closeCalls := 1 |}).
Proof.
  intros Hr. destruct (subscribe_open now w r Hr) as (Hr1 & Hsubs1 & Hmap1).
  split; [unfold subscribeMemoryEvents; rewrite Hr; reflexivity|].
  split; [rewrite Hmap1; apply JsMap_get_set|].
  intros Hfresh.
  destruct (unsubscribe_removes_one (fst (subscribeMemoryEvents now w))
              (js "snow-mem-" ++ String_of_number now)) as [_ Hhit].
  specialize (Hhit (length (subs w))). rewrite Hmap1 in Hhit.
  specialize (Hhit (JsMap_get_set _ _ _)) as (_ & _ & Hclosed & _).
  split.
  - rewrite (unsubscribe_map _ _ (length (subs w)))
      by (rewrite Hmap1; apply JsMap_get_set).
    rewrite Hmap1. apply JsMap_delete_set_fresh. exact Hfresh.
  - rewrite Hclosed, Hsubs1, list_lookup_middle by reflexivity. reflexivity.
Qed.

Lemma subscribe_then_unsubscribe_witness :
  subscriptions
    (state (unsubscribe (js "snow-mem-1700000000001")
              (fst (subscribeMemoryEvents 1700000000001 subscribedWorld))))
  = subscriptions (state subscribedWorld).
Proof.
  destruct (subscribe_then_unsubscribe subscribedWorld 1700000000001 0%nat eq_refl)
    as (_ & _ & Hback).
  apply Hback. reflexivity.
Defined.

(** ** Connecting and disconnecting *)

Lemma closeRelay_lookup (r j : nat) (rs : list RelayObj) :
  closeRelay r rs !! j = if decide (r = j) then closed <$> rs !! j else rs !! j.
Proof.
  unfold closeRelay. destruct (decide (r = j)) as [->|Hne].
  - apply list_lookup_alter_eq.
  - apply list_lookup_alter_ne. exact Hne.
Qed.

Lemma settleRelay_lookup (r j : nat) (o : Outcome) (rs : list RelayObj) :
  settleRelay r o rs !! j
  = if decide (r = j)
    then (fun obj => {| r_url := r_url obj;
                        r_phase := match o with
                                   | Resolved => Open
                                   | Rejected _ => Failed
                                   end |}) <$> rs !! j
    else rs !! j.
Proof.
  unfold settleRelay. destruct (decide (r = j)) as [->|Hne].
  - apply list_lookup_alter_eq.
  - apply list_lookup_alter_ne. exact Hne.
Qed.

Lemma heldClosed_length {D : Type} (w : World D) :
  length (heldClosed w) = length (relays w).
Proof.
  unfold heldClosed, closeRelay. destruct (relay (state w)); [|reflexivity].
  apply length_alter.
Qed.

Lemma connect_begin_facts {D : Type} (u : jsstring) (w : World D) :
  snd (connect_begin u w) = length (relays w)
  /\ relays (fst (connect_begin u w))
     = heldClosed w ++ [{| r_url := u; r_phase := Connecting |}]
  /\ relay (state (fst (connect_begin u w))) = relay (state w)
  /\ status (state (fst (connect_begin u w))) = connecting
  /\ url (state (fst (connect_begin u w))) = u
  /\ subscriptions (state (fst (connect_begin u w))) = subscriptions (state w)
  /\ eventCount (state (fst (connect_begin u w))) = eventCount (state w)
  /\ subs (fst (connect_begin u w)) = subs w.
Proof.
  unfold connect_begin, heldClosed.
  destruct (relay (state w)) as [h|] eqn:Hh; cbn; rewrite ?Hh;
    repeat split; try reflexivity.
  unfold closeRelay. apply length_alter.
Qed.

Lemma connect_refused_facts {D : Type} (u err : jsstring) (w : World D) :
  snd (connect_refused u err w) = err
  /\ relays (fst (connect_refused u err w)) = heldClosed w
  /\ relay (state (fst (connect_refused u err w))) = relay (state w)
  /\ status (state (fst (connect_refused u err w))) = disconnected
  /\ url (state (fst (connect_refused u err w))) = u
  /\ subscriptions (state (fst (connect_refused u err w))) = subscriptions (state w)
  /\ eventCount (state (fst (connect_refused u err w))) = eventCount (state w)
  /\ subs (fst (connect_refused u err w)) = subs w.
Proof.
  unfold connect_refused, connect_enter, heldClosed.
  destruct (relay (state w)) as [h|] eqn:Hh; cbn; rewrite ?Hh;
    repeat split; reflexivity.
Qed.

Lemma loseRelay_lookup {D : Type} (r j : nat) (w : World D) :
  relays (loseRelay r w) !! j
  = if decide (r = j) then lost <$> relays w !! j else relays w !! j.
Proof.
  unfold loseRelay. cbn. destruct (decide (r = j)) as [->|Hne].
  - apply list_lookup_alter_eq.
  - apply list_lookup_alter_ne. exact Hne.
Qed.

Lemma disconnect_relays {D : Type} (w : World D) :
  relays (disconnect w) = heldClosed w.
Proof.
  unfold disconnect, heldClosed. destruct (relay (state w)) as [h|]; [|reflexivity].
  destruct (disconnect_loop _ _ _) as [m ss]. reflexivity.
Qed.

Lemma inFlight_spec {D : Type} (r : nat) (w : World D) :
  inFlight r w = true <-> exists o, relays w !! r = Some o /\ r_phase o = Connecting.
Proof.
  unfold inFlight. destruct (relays w !! r) as [[u ph]|].
  - destruct ph; split; try discriminate; try (intros (o & [= <-] & Hp); discriminate).
    + intros _. eexists. split; reflexivity.
    + reflexivity.
  - split; [discriminate|]. intros (o & Ho & _). discriminate.
Qed.

Section Connections.
Context {D : Type}.
Implicit Types w : World D.

Lemma connection_initial (d : D) : connectionInvariant (initialWorld d).
Proof. constructor; cbn; discriminate. Qed.

Lemma connection_frame w w' :
  relay (state w') = relay (state w) -> status (state w') = status (state w) ->
  relays w' = relays w ->
  connectionInvariant w -> connectionInvariant w'.
Proof.
  intros Hr Hs Hrs [H1 H2]. constructor; rewrite ?Hr, ?Hs, ?Hrs; assumption.
Qed.

Lemma connection_connect_begin u w :
  connectionInvariant w -> connectionInvariant (fst (connect_begin u w)).
Proof.
  intros [H1 _].
  destruct (connect_begin_facts u w) as (_ & Hrs & Hr & Hs & _).
  constructor; rewrite ?Hr, ?Hs, ?Hrs; [|discriminate].
  intros h Hh. destruct (H1 h Hh) as (o & Ho & Hp).
  exists (closed o). split; [|discriminate].
  rewrite lookup_app_l by (rewrite heldClosed_length; eapply lookup_lt_Some; eassumption).
  unfold heldClosed. rewrite Hh, closeRelay_lookup.
  destruct (decide (h = h)); [|contradiction]. rewrite Ho. reflexivity.
Qed.

Lemma connection_connect_resume r o w :
  inFlight r w = true ->
  connectionInvariant w -> connectionInvariant (fst (connect_resume r o w)).
Proof.
  intros Hr [H1 _]. apply inFlight_spec in Hr as (obj & Hobj & Hph).
  destruct o as [|err]; constructor; cbn.
  - intros ? [= <-]. rewrite settleRelay_lookup.
    destruct (decide (r = r)); [|contradiction]. rewrite Hobj.
    eexists. split; [reflexivity|discriminate].
  - intros _. exists r. rewrite settleRelay_lookup.
    destruct (decide (r = r)); [|contradiction]. rewrite Hobj.
    eexists. split; [reflexivity|]. split; [reflexivity|left; reflexivity].
  - intros h Hh. destruct (H1 h Hh) as (oh & Hoh & Hp). exists oh.
    split; [|exact Hp]. rewrite settleRelay_lookup.
    destruct (decide (r = h)) as [->|_]; [congruence|exact Hoh].
  - discriminate.
Qed.

Lemma connection_connect_refused u err w :
  connectionInvariant w -> connectionInvariant (fst (connect_refused u err w)).
Proof.
  intros [H1 _].
  destruct (connect_refused_facts u err w) as (_ & Hrs & Hr & Hs & _).
  constructor; rewrite ?Hr, ?Hs, ?Hrs; [|discriminate].
  intros h Hh. destruct (H1 h Hh) as (o & Ho & Hp).
  exists (closed o). split; [|discriminate].
  unfold heldClosed. rewrite Hh, closeRelay_lookup.
  destruct (decide (h = h)); [|contradiction]. rewrite Ho. reflexivity.
Qed.

Lemma connection_loseRelay r w :
  connectionInvariant w -> connectionInvariant (loseRelay r w).
Proof.
  intros [H1 H2]. constructor.
  - intros h Hh. destruct (H1 h Hh) as (o & Ho & Hp).
    rewrite loseRelay_lookup, Ho.
    destruct (decide (r = h)); eexists; (split; [reflexivity|]);
      [discriminate|exact Hp].
  - intros Hs. destruct (H2 Hs) as (h & o & Hh & Ho & Hp).
    exists h. rewrite loseRelay_lookup, Ho.
    destruct (decide (r = h)); eexists; (split; [exact Hh|]);
      (split; [reflexivity|]); [right; reflexivity|exact Hp].
Qed.

Lemma connection_disconnect w :
  connectionInvariant (disconnect w).
Proof.
  pose proof (disconnect_state w) as (Hr & Hs & _).
  constructor; rewrite ?Hr, ?Hs; discriminate.
Qed.

Lemma subscribe_frame now w :
  relay (state (fst (subscribeMemoryEvents now w))) = relay (state w)
  /\ status (state (fst (subscribeMemoryEvents now w))) = status (state w)
  /\ relays (fst (subscribeMemoryEvents now w)) = relays w
  /\ eventCount (state (fst (subscribeMemoryEvents now w))) = eventCount (state w)
  /\ ui (fst (subscribeMemoryEvents now w)) = ui w.
Proof.
  unfold subscribeMemoryEvents. destruct (relay (state w)) eqn:Hr; cbn; rewrite ?Hr; auto.
Qed.

Lemma unsubscribe_frame subId w :
  relay (state (unsubscribe subId w)) = relay (state w)
  /\ status (state (unsubscribe subId w)) = status (state w)
  /\ relays (unsubscribe subId w) = relays w
  /\ eventCount (state (unsubscribe subId w)) = eventCount (state w)
  /\ ui (unsubscribe subId w) = ui w.
Proof.
  unfold unsubscribe. destruct (JsMap.get subId (subscriptions (state w))); cbn; auto.
Qed.

Lemma connection_exec (c : Call D) w :
  enabled c w = true -> connectionInvariant w -> connectionInvariant (exec c w).
Proof.
  destruct c; cbn [exec enabled]; intros Hen.
  - apply connection_frame; reflexivity.
  - apply connection_frame; reflexivity.
  - apply connection_connect_begin.
  - intros _. apply connection_disconnect.
  - destruct (subscribe_frame now w) as (? & ? & ? & _).
    apply connection_frame; assumption.
  - destruct (unsubscribe_frame subId w) as (? & ? & ? & _).
    apply connection_frame; assumption.
  - apply connection_connect_resume. exact Hen.
  - apply connection_frame; reflexivity.
  - apply connection_connect_refused.
  - apply connection_loseRelay.
Qed.

Lemma reachable_connection w : reachable w -> connectionInvariant w.
Proof.
  induction 1 as [d|w c _ IH Hen]; [apply connection_initial|].
  apply connection_exec; assumption.
Qed.

End Connections.

(** In every state of the module where the status is ['connected'] a
    connection is held that came up and on which the module has not called
    [close()]; with a null handle the status is not ['connected'].  The
    status does not say that the connection is still open: when the relay or
    the network ends the held connection, the module is not told (it
    registers no handler), its variables and its listeners' state stay as
    they are, so the status still reads ['connected'] although the
    connection is gone and no event arrives on its subscriptions. *)
Theorem connected_status_outlives_connection {D : Type} (w : World D) :
  reachable w ->
  (status (state w) = connected ->
   exists r o, relay (state w) = Some r /\ relays w !! r = Some o
               /\ (r_phase o = Open \/ r_phase o = Lost))
  /\ (relay (state w) = None -> status (state w) <> connected)
  /\ (forall r, relay (state w) = Some r -> enabled (Drop r) w = true ->
        reachable (exec (Drop r) w)
        /\ state (exec (Drop r) w) = state w
        /\ ui (exec (Drop r) w) = ui w
        /\ connectionOpen r (exec (Drop r) w) = false
        /\ (forall sub e o, subs w !! sub = Some o -> s_relay o = r ->
              delivers sub e (exec (Drop r) w) = false)).
Proof.
  intros Hreach. pose proof (reachable_connection w Hreach) as [_ H2].
  split; [exact H2|]. split.
  - intros Hnone Hs. destruct (H2 Hs) as (r & _ & Hr & _). congruence.
  - intros r _ Hen. split; [apply reachable_exec; assumption|].
    split; [reflexivity|]. split; [reflexivity|].
    cbn [exec enabled] in *. unfold connectionOpen in *.
    destruct (relays w !! r) as [o|] eqn:Ho; [|discriminate].
    split.
    + rewrite loseRelay_lookup, Ho.
      destruct (decide (r = r)); [reflexivity|contradiction].
    + intros sub e s Hsub Hrel. unfold delivers.
      change (subs (loseRelay r w)) with (subs w).
      rewrite Hsub, Hrel, loseRelay_lookup, Ho.
      destruct (decide (r = r)); [|contradiction].
      cbn. rewrite andb_false_r. reflexivity.
Qed.

Lemma connected_status_outlives_connection_witness :
  status (state (exec (Drop 0) subscribedWorld)) = connected
  /\ connectionOpen 0 (exec (Drop 0) subscribedWorld) = false
  /\ delivers 0 topicEvent subscribedWorld = true
  /\ delivers 0 topicEvent (exec (Drop 0) subscribedWorld) = false.
Proof.
  destruct (connected_status_outlives_connection subscribedWorld
              subscribedWorld_reachable) as (_ & _ & Hdrop).
  destruct (Hdrop 0%nat eq_refl eq_refl) as (_ & Hst & _ & Hgone & Hdead).
  split; [rewrite Hst; reflexivity|]. split; [exact Hgone|].
  split; [reflexivity|].
  apply (Hdead 0%nat topicEvent
           {| s_relay := 0; s_filters := [memoryFilter]; s_closeCalls := 0 |});
    reflexivity.
Defined.

Lemma connect_resume_facts {D : Type} (r : nat) (o : Outcome) (w : World D) :
  relays (fst (connect_resume r o w)) = settleRelay r o (relays w)
  /\ subs (fst (connect_resume r o w)) = subs w
  /\ subscriptions (state (fst (connect_resume r o w))) = subscriptions (state w)
  /\ url (state (fst (connect_resume r o w))) = url (state w)
  /\ eventCount (state (fst (connect_resume r o w))) = eventCount (state w).
Proof. destruct o; repeat split; reflexivity. Qed.

(** A [connect(url)] whose connection comes up before anything else happens
    leaves the module connected to that url through a new, open connection;
    the connection held before is closed and every other one is as it was.
    The subscription map is not touched: the subscriptions opened on the
    connection held before stay in it, though no event can arrive on them
    any more. *)
Theorem connect_then_resolved {D : Type} (w : World D) (u : jsstring) :
  let r := snd (connect_begin u w) in
  let w2 := fst (connect_resume r Resolved (fst (connect_begin u w))) in
  r = length (relays w)
  /\ snd (connect_resume r Resolved (fst (connect_begin u w))) = inl tt
  /\ relay (state w2) = Some r
  /\ status (state w2) = connected
  /\ url (state w2) = u
  /\ relays w2 !! r = Some {| r_url := u; r_phase := Open |}
  /\ subscriptions (state w2) = subscriptions (state w)
  /\ subs w2 = subs w
  /\ (forall h, relay (state w) = Some h -> h < length (relays w) ->
        relays w2 !! h = closed <$> relays w !! h)%nat
  /\ (forall j, relay (state w) <> Some j -> j <> r -> relays w2 !! j = relays w !! j)
  /\ (forall h sub o e, relay (state w) = Some h -> h < length (relays w) ->
        subs w !! sub = Some o -> s_relay o = h ->
        delivers sub e w2 = false)%nat.
Proof.
  intros r w2.
  destruct (connect_begin_facts u w) as (Hr & Hrs & Hh & _ & Hu & Hm & _ & Hss).
  assert (Hrelays : relays w2
                    = settleRelay r Resolved
                        (heldClosed w ++ [{| r_url := u; r_phase := Connecting |}])).
  { subst w2. rewrite (proj1 (connect_resume_facts _ _ _)), Hrs. reflexivity. }
  destruct (connect_resume_facts r Resolved (fst (connect_begin u w)))
    as (_ & Hss2 & Hm2 & Hu2 & _).
  fold w2 in Hss2, Hm2, Hu2.
  assert (Hheld : forall h, relay (state w) = Some h -> (h < length (relays w))%nat ->
                            relays w2 !! h = closed <$> relays w !! h).
  { intros h Hheld Hlt. rewrite Hrelays, settleRelay_lookup.
    destruct (decide (r = h)) as [Heq|_]; [subst r; lia|].
    rewrite lookup_app_l by (rewrite heldClosed_length; exact Hlt).
    unfold heldClosed. rewrite Hheld, closeRelay_lookup.
    destruct (decide (h = h)); [reflexivity|contradiction]. }
  split; [exact Hr|]. split; [reflexivity|]. split; [reflexivity|].
  split; [reflexivity|]. split; [rewrite Hu2; exact Hu|].
  split.
  { rewrite Hrelays, settleRelay_lookup. destruct (decide (r = r)); [|contradiction].
    fold r in Hr. rewrite Hr at 1. rewrite <- (heldClosed_length w).
    rewrite list_lookup_middle by reflexivity. reflexivity. }
  split; [rewrite Hm2; exact Hm|]. split; [rewrite Hss2; exact Hss|].
  split; [exact Hheld|]. split.
  - intros j Hj Hjr. rewrite Hrelays, settleRelay_lookup.
    destruct (decide (r = j)) as [Heq|_]; [congruence|].
    destruct (decide (j < length (relays w))%nat) as [Hlt|Hge].
    + rewrite lookup_app_l by (rewrite heldClosed_length; exact Hlt).
      unfold heldClosed. destruct (relay (state w)) as [h|]; [|reflexivity].
      rewrite closeRelay_lookup. destruct (decide (h = j)); [congruence|reflexivity].
    + rewrite !lookup_ge_None_2; [reflexivity|lia|].
      rewrite length_app, heldClosed_length. simpl. fold r in Hr. lia.
  - intros h sub o e Hh' Hlt Hsub Hrel. unfold delivers.
    rewrite Hss2, Hss.
    rewrite Hsub, Hrel, (Hheld h Hh' Hlt).
    destruct (relays w !! h) as [oh|]; simpl.
    + rewrite andb_false_r. reflexivity.
    + rewrite andb_false_r. reflexivity.
Qed.

Lemma connect_then_resolved_witness :
  relay (state (fst (connect_resume 1 Resolved
                       (fst (connect_begin (js "wss://b.example") subscribedWorld)))))
  = Some 1%nat
  /\ delivers 0 topicEvent subscribedWorld = true
  /\ delivers 0 topicEvent
       (fst (connect_resume 1 Resolved
               (fst (connect_begin (js "wss://b.example") subscribedWorld))))
     = false.
Proof.
  destruct (connect_then_resolved subscribedWorld (js "wss://b.example"))
    as (_ & _ & Hheld & _ & _ & _ & _ & _ & _ & _ & Hdead).
  split; [exact Hheld|]. split; [reflexivity|].
  apply (Hdead 0%nat 0%nat {| s_relay := 0; s_filters := [memoryFilter];
                              s_closeCalls := 0 |});
    try reflexivity. simpl. lia.
Defined.

(** [disconnect()] closes the connection that is held and no other.  A
    connection attempt in flight is not cancelled: it stays in flight, and
    when it comes up the module holds it and its status is ['connected']
    again. *)
Theorem disconnect_spares_in_flight {D : Type} (w : World D) :
  reachable w ->
  (forall h, relay (state w) = Some h -> relays (disconnect w) !! h = closed <$> relays w !! h)
  /\ (forall j, relay (state w) <> Some j -> relays (disconnect w) !! j = relays w !! j)
  /\ (forall r, inFlight r w = true ->
        inFlight r (disconnect w) = true
        /\ relay (state (fst (connect_resume r Resolved (disconnect w)))) = Some r
        /\ status (state (fst (connect_resume r Resolved (disconnect w)))) = connected).
Proof.
  intros Hreach. apply reachable_connection in Hreach as [H1 _].
  rewrite disconnect_relays. unfold heldClosed.
  split; [|split].
  - intros h ->. rewrite closeRelay_lookup.
    destruct (decide (h = h)); [reflexivity|contradiction].
  - intros j Hj. destruct (relay (state w)) as [h|]; [|reflexivity].
    rewrite closeRelay_lookup. destruct (decide (h = j)); [congruence|reflexivity].
  - intros r Hr. split; [|split; reflexivity].
    apply inFlight_spec in Hr as (o & Ho & Hp). apply inFlight_spec.
    exists o. split; [|exact Hp]. rewrite disconnect_relays. unfold heldClosed.
    destruct (relay (state w)) as [h|] eqn:Hh; [|exact Ho].
    rewrite closeRelay_lookup. destruct (decide (h = r)) as [->|_]; [|exact Ho].
    destruct (H1 r eq_refl) as (o' & Ho' & Hp'). congruence.
Qed.

Lemma disconnect_spares_in_flight_witness :
  inFlight 1 (disconnect (fst (connect_begin (js "wss://b.example") subscribedWorld)))
  = true
  /\ status (state (fst (connect_resume 1 Resolved
                           (disconnect (fst (connect_begin (js "wss://b.example")
                                               subscribedWorld))))))
     = connected.
Proof.
  assert (Hreach : reachable (fst (connect_begin (js "wss://b.example") subscribedWorld))).
  { apply (reachable_exec subscribedWorld (CallConnect (js "wss://b.example")));
      [exact subscribedWorld_reachable|reflexivity]. }
  destruct (disconnect_spares_in_flight _ Hreach) as (_ & _ & Hflight).
  destruct (Hflight 1%nat eq_refl) as (Hstill & _ & Hconn).
  split; assumption.
Defined.

(** ** The event count *)

Lemma disconnect_eventCount {D : Type} (w : World D) :
  eventCount (state (disconnect w)) = eventCount (state w).
Proof.
  unfold disconnect. destruct (relay (state w)); [|reflexivity].
  destruct (disconnect_loop _ _ _) as [m ss]. reflexivity.
Qed.

Lemma exec_eventCount {D : Type} (c : Call D) (w : World D) :
  eventCount (state (exec c w))
  = eventCount (state w) + Z.of_nat (deliveries [c]).
Proof.
  destruct c; cbn [exec deliveries Z.of_nat]; rewrite ?Z.add_0_r; try reflexivity.
  - apply connect_begin_facts.
  - apply disconnect_eventCount.
  - apply (subscribe_frame now w).
  - apply (unsubscribe_frame subId w).
  - apply connect_resume_facts.
  - apply connect_refused_facts.
Qed.

(** Whatever is called in between, the event count grows by exactly the
    number of events the library hands to [onevent]: no other function of
    the module changes it, and nothing resets it. *)
Theorem eventCount_counts_deliveries {D : Type} (cs : list (Call D)) (w : World D) :
  eventCount (state (run cs w)) = eventCount (state w) + Z.of_nat (deliveries cs).
Proof.
  revert w. induction cs as [|c cs IH]; intros w.
  - simpl. lia.
  - cbn [run]. rewrite IH, exec_eventCount.
    destruct c; cbn [deliveries]; lia.
Qed.

(** ** The page follows the module *)

Import Page.


Lemma setStatus_page (s : RelayStatus) (w : World Dom) :
  statusListeners w = [statusListener] ->
  ui (setStatus s w) = statusListener s (state (setStatus s w)) (ui w)
  /\ status (state (setStatus s w)) = s.
Proof. intros Hl. unfold setStatus. cbn. rewrite Hl. split; reflexivity. Qed.







Lemma btnConnect_refused_eq (err : jsstring) (w : World Dom) :
  btnConnect_refused err w
  = match trim (relayUrlInput (ui w)) with
    | [] => w
    | u => withUi (setRelayInfo (js "Connection failed: " ++ err)
                     (ui (fst (connect_refused u err w))))
                  (fst (connect_refused u err w))
    end.
Proof.
  unfold btnConnect_refused. destruct (trim (relayUrlInput (ui w))); reflexivity.
Qed.













(** ** More on escapeHtml *)

Lemma escapeHtml_single (c : N) : escapeHtml [c] = escapeChar c.
Proof.
  unfold escapeChar.
  destruct (N.eqb_spec c amp) as [->|Ha]; [reflexivity|].
  destruct (N.eqb_spec c lt) as [->|Hl]; [reflexivity|].
  destruct (N.eqb_spec c gt) as [->|Hg]; [reflexivity|].
  destruct (N.eqb_spec c quot) as [->|Hq]; [reflexivity|].
  unfold escapeHtml. rewrite !replaceAll_other by assumption. reflexivity.
Qed.

Lemma escapeHtml_flat (s : jsstring) : escapeHtml s = flat_map escapeChar s.
Proof.
  induction s as [|c s IH]; [reflexivity|].
  rewrite escapeHtml_cons, escapeHtml_single, IH. reflexivity.
Qed.

Lemma escapeChar_cases (c : N) :
  (c = amp /\ escapeChar c = [38; 97; 109; 112; 59]%N)
  \/ (c = lt /\ escapeChar c = [38; 108; 116; 59]%N)
  \/ (c = gt /\ escapeChar c = [38; 103; 116; 59]%N)
  \/ (c = quot /\ escapeChar c = [38; 113; 117; 111; 116; 59]%N)
  \/ (isSpecial c = false /\ escapeChar c = [c]).
Proof.
  unfold escapeChar, isSpecial.
  destruct (N.eqb_spec c amp) as [->|Ha]; [auto|].
  destruct (N.eqb_spec c lt) as [->|Hl]; [auto|].
  destruct (N.eqb_spec c gt) as [->|Hg]; [auto|].
  destruct (N.eqb_spec c quot) as [->|Hq]; [auto 6|].
  right. right. right. right. split; reflexivity.
Qed.

Lemma escapeHtml_length (s : jsstring) : (length s <= length (escapeHtml s))%nat.
Proof.
  rewrite escapeHtml_flat. induction s as [|c s IH]; simpl; [lia|].
  rewrite length_app.
  destruct (escapeChar_cases c) as [[_ ->]|[[_ ->]|[[_ ->]|[[_ ->]|[_ ->]]]]];
    simpl; lia.
Qed.

(** [escapeHtml] loses nothing: texts with the same result are the same
    text.  It never makes a text shorter, and it returns a text as it is
    exactly when the text holds none of the four characters it replaces. *)
Theorem escapeHtml_injective (a b : jsstring) :
  (escapeHtml a = escapeHtml b -> a = b)
  /\ (length a <= length (escapeHtml a))%nat
  /\ (escapeHtml a = a <-> forallb (fun c => negb (isSpecial c)) a = true).
Proof.
  split; [|split; [apply escapeHtml_length|]].
  - rewrite !escapeHtml_flat. revert b.
    induction a as [|x a IH]; intros [|y b] Heq.
    + reflexivity.
    + exfalso. simpl in Heq.
      destruct (escapeChar_cases y) as [[_ Hy]|[[_ Hy]|[[_ Hy]|[[_ Hy]|[_ Hy]]]]];
        rewrite Hy in Heq; discriminate.
    + exfalso. simpl in Heq.
      destruct (escapeChar_cases x) as [[_ Hx]|[[_ Hx]|[[_ Hx]|[[_ Hx]|[_ Hx]]]]];
        rewrite Hx in Heq; discriminate.
    + cbn [flat_map] in Heq.
      destruct (escapeChar_cases x) as [[-> Hx]|[[-> Hx]|[[-> Hx]|[[-> Hx]|[Hsx Hx]]]]];
        destruct (escapeChar_cases y) as [[-> Hy]|[[-> Hy]|[[-> Hy]|[[-> Hy]|[Hsy Hy]]]]];
        rewrite ?Hx, ?Hy in Heq; cbn [app] in Heq;
        try discriminate;
        try (injection Heq as Heq; f_equal; apply IH; exact Heq);
        try (injection Heq as <- _; discriminate);
        try (injection Heq as -> _; discriminate).
      injection Heq as -> Heq. f_equal. apply IH. exact Heq.
  - split.
    + intros Hid. induction a as [|x a IH]; [reflexivity|].
      rewrite escapeHtml_cons, escapeHtml_single in Hid.
      pose proof (escapeHtml_length a) as Hlen.
      destruct (escapeChar_cases x) as [[_ Hx]|[[_ Hx]|[[_ Hx]|[[_ Hx]|[Hsx Hx]]]]];
        rewrite Hx in Hid; cbn [app] in Hid;
        try (exfalso; injection Hid as _ Hid;
             apply (f_equal (@length N)) in Hid; simpl in Hid; lia).
      injection Hid as Hid. cbn [forallb]. rewrite Hsx. simpl. apply IH. exact Hid.
    + intros Hplain. induction a as [|x a IH]; [reflexivity|].
      cbn [forallb] in Hplain. apply andb_true_iff in Hplain as [Hx Hrest].
      apply negb_true_iff in Hx.
      rewrite escapeHtml_cons, escapeHtml_single, (IH Hrest).
      destruct (escapeChar_cases x) as [[-> _]|[[-> _]|[[-> _]|[[-> _]|[_ ->]]]]];
        try discriminate. reflexivity.
Qed.

Lemma escapeHtml_injective_witness :
  escapeHtml (js "1 < 2 & 3") <> escapeHtml (js "1 &lt; 2 & 3")
  /\ escapeHtml (js "plain text") = js "plain text".
Proof.
  split.
  - intros Heq. apply (escapeHtml_injective (js "1 < 2 & 3") (js "1 &lt; 2 & 3")) in Heq.
    discriminate.
  - apply (escapeHtml_injective (js "plain text") []). reflexivity.
Defined.

(** ** Dates out of range *)

Lemma validTime_seconds (t : Z) : validTime (t * 1000) = true <-> secondsInRange t.
Proof.
  unfold validTime, maxTimeValue, secondsInRange. rewrite Z.leb_le. lia.
Qed.

(** [formatEvent] returns the markup exactly when the creation time, in
    milliseconds, is a valid date; otherwise it throws, and the inspector
    reports a well-formed event as a parse error.  The log listener does not
    throw on such an event: its entry shows [Invalid Date]. *)
Theorem formatEvent_needs_valid_date `{Engine} (e : Event) :
  (formatEvent e <> None <-> secondsInRange (created_at e))
  /\ (forall w v, trim (eventJsonInput (ui w)) <> [] ->
        JSON_parse (trim (eventJsonInput (ui w))) = Some v -> asEvent v = Some e ->
        ~ secondsInRange (created_at e) ->
        inspectOutput (ui (btnInspect_click w))
        = TextContent (js "Parse error: " ++ rangeErrorText))
  /\ (~ secondsInRange (created_at e) ->
      innerHTML (logEntryOf e)
      = js "<strong>" ++ String_of_number (kind e) ++ js "</strong> "
        ++ escapeHtml (slice0 16 (id e)) ++ js "... <em>Invalid Date</em>").
Proof.
  assert (Hfmt : formatEvent e <> None <-> secondsInRange (created_at e)).
  { rewrite <- validTime_seconds. unfold formatEvent, toISOString.
    destruct (validTime (created_at e * 1000)); split; congruence. }
  split; [exact Hfmt|split].
  - intros w v Hraw Hparse Hev Hrange. unfold btnInspect_click.
    destruct (trim (eventJsonInput (ui w))) as [|c raw] eqn:Htrim; [contradiction|].
    rewrite Hparse. unfold formatParsed. rewrite Hev.
    destruct (formatEvent e) eqn:Hf; [|reflexivity].
    exfalso. apply Hrange, Hfmt. congruence.
  - intros Hrange. unfold logEntryOf, toLocaleTimeString. cbn [innerHTML].
    destruct (validTime (created_at e * 1000)) eqn:Hv.
    + exfalso. apply Hrange, validTime_seconds. exact Hv.
    + do 4 (apply f_equal). reflexivity.
Qed.

Lemma formatEvent_needs_valid_date_witness :
  inspectOutput (ui (@btnInspect_click sampleEngine lateInspector))
  = TextContent (js "Parse error: RangeError: Invalid time value").
Proof.
  destruct (@formatEvent_needs_valid_date sampleEngine
              {| id := js "ab"; pubkey := js "cd"; created_at := 9000000000000;
                 kind := 30078; tags := [[js "d"; js "snow:memory:x"]];
                 content := js "{}"; sig := [] |}) as (_ & Hinspect & _).
  apply (Hinspect lateInspector
           (JObject [(js "id", JString (js "ab")); (js "pubkey", JString (js "cd"));
                     (js "created_at", JNumber (js "9000000000000"));
                     (js "kind", JNumber (js "30078"));
                     (js "tags", JArray [JArray [JString (js "d");
                                                 JString (js "snow:memory:x")]]);
                     (js "content", JString (js "{}"))])).
  - discriminate.
  - vm_compute. reflexivity.
  - vm_compute. reflexivity.
  - unfold secondsInRange. simpl. lia.
Defined.

(** ** The Connect button and the url field *)

Lemma trimStart_spaces (s : jsstring) :
  forallb isTrimSpace (trimStart s) = forallb isTrimSpace s.
Proof.
  induction s as [|c s IH]; [reflexivity|].
  simpl. destruct (isTrimSpace c) eqn:Hc; [exact IH|].
  simpl. rewrite Hc. reflexivity.
Qed.

Lemma trimStart_nil (s : jsstring) :
  trimStart s = [] <-> forallb isTrimSpace s = true.
Proof.
  induction s as [|c s IH]; [simpl; tauto|].
  simpl. destruct (isTrimSpace c); simpl; [exact IH|].
  split; discriminate.
Qed.

Lemma forallb_rev {A : Type} (p : A -> bool) (l : list A) :
  forallb p (rev l) = forallb p l.
Proof.
  induction l as [|x l IH]; [reflexivity|].
  simpl. rewrite forallb_app, IH. simpl. rewrite andb_true_r. apply andb_comm.
Qed.

Lemma trim_nil (s : jsstring) : trim s = [] <-> forallb isTrimSpace s = true.
Proof.
  unfold trim. rewrite <- trimStart_spaces, <- (forallb_rev _ (trimStart s)).
  rewrite <- trimStart_nil. split.
  - intros Hrev. apply (f_equal (@rev N)) in Hrev. rewrite rev_involutive in Hrev.
    exact Hrev.
  - intros ->. reflexivity.
Qed.

(** With only white space in the url field (or nothing), the Connect button
    does nothing: no connection is started and no state changes.  With any
    other character in it, the button calls [connect] with the trimmed url.
    When [new Relay(url)] returns, one connection is started, to the trimmed
    url, and the status is ['connecting'].  When [new Relay(url)] throws
    (the library rejects the url), no connection is started: the relay
    objects are those there were, with the held one closed, the status is
    ['disconnected'] and the page shows the error. *)
Theorem connect_button_needs_url (w : World Dom) (err : jsstring) :
  (forallb isTrimSpace (relayUrlInput (ui w)) = true ->
   btnConnect_click w = (w, None) /\ btnConnect_refused err w = w)
  /\ (forallb isTrimSpace (relayUrlInput (ui w)) = false ->
      (snd (btnConnect_click w) = Some (length (relays w))
       /\ relays (fst (btnConnect_click w)) !! length (relays w)
          = Some {| r_url := trim (relayUrlInput (ui w)); r_phase := Connecting |}
       /\ length (relays (fst (btnConnect_click w))) = S (length (relays w))
       /\ url (state (fst (btnConnect_click w))) = trim (relayUrlInput (ui w))
       /\ status (state (fst (btnConnect_click w))) = connecting)
      /\ (relays (btnConnect_refused err w) = heldClosed w
          /\ url (state (btnConnect_refused err w)) = trim (relayUrlInput (ui w))
          /\ status (state (btnConnect_refused err w)) = disconnected
          /\ relay (state (btnConnect_refused err w)) = relay (state w)
          /\ relayInfo (ui (btnConnect_refused err w))
             = js "Connection failed: " ++ err)).
Proof.
  split.
  - intros Hblank. apply trim_nil in Hblank.
    unfold btnConnect_click, btnConnect_refused.
    rewrite Hblank. split; reflexivity.
  - intros Hsome. rewrite btnConnect_refused_eq. unfold btnConnect_click.
    destruct (trim (relayUrlInput (ui w))) as [|c u] eqn:Htrim.
    + apply trim_nil in Htrim. congruence.
    + cbv zeta. split.
      * destruct (connect_begin_facts (c :: u) w) as (Hr & Hrs & _ & Hs & Hu & _).
        destruct (connect_begin (c :: u) w) as [w1 r]. cbn [fst snd] in *.
        split; [congruence|]. rewrite Hrs.
        split; [rewrite <- (heldClosed_length w); apply list_lookup_middle; reflexivity|].
        split; [rewrite length_app, heldClosed_length; simpl; lia|].
        split; assumption.
      * destruct (connect_refused_facts (c :: u) err w)
          as (_ & Hrs & Hr & Hs & Hu & _).
        set (w1 := fst (connect_refused (c :: u) err w)) in *. clearbody w1.
        cbn [relays state ui withUi relayInfo setRelayInfo].
        repeat split; assumption.
Qed.

Lemma connect_button_needs_url_witness :
  btnConnect_click staleInspector = (staleInspector, None)
  /\ snd (btnConnect_click (@init sampleEngine (initialWorld loadedPage))) = Some 0%nat
  /\ relays (btnConnect_refused (js "Error: Invalid URL")
               (@init sampleEngine (initialWorld loadedPage))) = []
  /\ status (state (btnConnect_refused (js "Error: Invalid URL")
                      (@init sampleEngine (initialWorld loadedPage)))) = disconnected.
Proof.
  destruct (connect_button_needs_url staleInspector (js "Error: Invalid URL"))
    as [Hblank _].
  destruct (connect_button_needs_url (@init sampleEngine (initialWorld loadedPage))
              (js "Error: Invalid URL")) as [_ Hurl].
  split; [apply Hblank; reflexivity|].
  destruct (Hurl eq_refl) as ((Hstart & _) & (Hrs & _ & Hs & _)).
  split; [exact Hstart|]. split; [exact Hrs|exact Hs].
Defined.

(** ** Log entries *)

(** The id shown in a log entry passes through [escapeHtml]: the markup
    characters of the entry are the same for two events of the same kind and
    creation time, whatever their ids are. *)
Theorem log_entry_blocks_markup `{Engine} (e1 e2 : Event) :
  kind e1 = kind e2 -> created_at e1 = created_at e2 ->
  markupOf (innerHTML (logEntryOf e1)) = markupOf (innerHTML (logEntryOf e2))
  /\ className (logEntryOf e1) = js "log-entry".
Proof.
  intros Hk Ht. split; [|reflexivity].
  unfold logEntryOf. cbn [innerHTML].
  rewrite !markupOf_app, !markupOf_escapeHtml, Hk, Ht. reflexivity.
Qed.

Lemma log_entry_blocks_markup_witness :
  markupOf (innerHTML (@logEntryOf sampleEngine topicEvent))
  = markupOf (innerHTML (@logEntryOf sampleEngine hostileEvent)).
Proof.
  apply (@log_entry_blocks_markup sampleEngine topicEvent hostileEvent); reflexivity.
Defined.

(** ** Panel navigation *)

Import Main.

Lemma deactivated_lookup (ls : list NavLink) (j : nat) (l : NavLink) :
  map deactivate ls !! j = Some l -> link_active l = false.
Proof.
  rewrite list_lookup_fmap. destruct (ls !! j); [|discriminate].
  intros [= <-]. reflexivity.
Qed.

(** A click on a link that names a panel leaves that link as the only
    active one and makes active exactly the panels whose id is [panel-] and
    the name; the links and panels keep their number, names and ids.  A
    click on a link without a panel name, or with an empty one, changes
    nothing. *)
Theorem navClick_selects (i : nat) (nav : Nav) :
  (forall link target,
     links nav !! i = Some link -> dataset_panel link = Some target -> target <> [] ->
     (forall j l, links (navClick i nav) !! j = Some l ->
                  link_active l = Nat.eqb j i)
     /\ (forall p, In p (panels (navClick i nav)) ->
                   panel_active p = strictEq (panel_id p) (js "panel-" ++ target))
     /\ map dataset_panel (links (navClick i nav)) = map dataset_panel (links nav)
     /\ map panel_id (panels (navClick i nav)) = map panel_id (panels nav))
  /\ (forall link,
        links nav !! i = Some link ->
        dataset_panel link = None \/ dataset_panel link = Some [] ->
        navClick i nav = nav)
  /\ (links nav !! i = None -> navClick i nav = nav).
Proof.
  unfold navClick. split; [|split].
  - intros link target -> -> Hne.
    destruct target as [|c t]; [contradiction|]. cbn [links panels].
    split; [|split; [|split]].
    + intros j l. rewrite list_lookup_alter.
      destruct (decide (i = j)) as [->|Hij].
      * rewrite Nat.eqb_refl. destruct (map deactivate (links nav) !! j); [|discriminate].
        intros [= <-]. reflexivity.
      * intros Hl. apply deactivated_lookup in Hl. rewrite Hl.
        symmetry. apply Nat.eqb_neq. congruence.
    + intros p Hin. apply in_map_iff in Hin as (q & <- & _). reflexivity.
    + apply list_eq. intros j. rewrite !list_lookup_fmap, list_lookup_alter.
      destruct (decide (i = j)) as [->|_]; rewrite list_lookup_fmap;
        destruct (links nav !! j); reflexivity.
    + rewrite map_map. reflexivity.
  - intros link -> [-> | ->]; reflexivity.
  - intros ->. reflexivity.
Qed.

Lemma navClick_selects_witness :
  map link_active (links (navClick 2 sampleNav)) = [false; false; true]
  /\ map panel_active (panels (navClick 2 sampleNav)) = [false; true]
  /\ navClick 1 sampleNav = sampleNav.
Proof.
  destruct (navClick_selects 1 sampleNav) as (_ & Hnone & _).
  split; [reflexivity|]. split; [reflexivity|].
  apply (Hnone (mkNavLink None false)); [reflexivity|left; reflexivity].
Defined.

(** ** A reconnect that fails *)

(** When [connect] is called while a connection is held and the new attempt
    fails, the status is ['disconnected'] but the handle is not null: it
    still refers to the connection [connect] closed before the attempt. *)
Theorem failed_reconnect_keeps_closed_handle {D : Type} (w : World D)
    (u err : jsstring) (h : nat) (o : RelayObj) :
  relay (state w) = Some h -> relays w !! h = Some o ->
  let w2 := fst (connect_resume (snd (connect_begin u w)) (Rejected err)
                   (fst (connect_begin u w))) in
  status (state w2) = disconnected
  /\ relay (state w2) = Some h
  /\ relays w2 !! h = Some {| r_url := r_url o; r_phase := Closed |}
  /\ relays w2 !! length (relays w) = Some {| r_url := u; r_phase := Failed |}.
Proof.
  intros Hh Ho w2.
  destruct (connect_begin_facts u w) as (Hr & Hrs & Hrel & _).
  destruct (connect_resume_facts (snd (connect_begin u w)) (Rejected err)
              (fst (connect_begin u w))) as (Hrs2 & _).
  fold w2 in Hrs2. rewrite Hr in Hrs2. rewrite Hrs in Hrs2.
  assert (Hlt : (h < length (relays w))%nat) by (eapply lookup_lt_Some; eassumption).
  split; [reflexivity|].
  split; [transitivity (relay (state (fst (connect_begin u w)))); [reflexivity|congruence]|].
  subst w2. rewrite Hrs2, !settleRelay_lookup. split.
  - destruct (decide (length (relays w) = h)); [lia|].
    rewrite lookup_app_l by (rewrite heldClosed_length; exact Hlt).
    unfold heldClosed. rewrite Hh, closeRelay_lookup.
    destruct (decide (h = h)); [|contradiction]. rewrite Ho. reflexivity.
  - destruct (decide (length (relays w) = length (relays w))); [|contradiction].
    rewrite <- (heldClosed_length w) at 1.
    rewrite list_lookup_middle by reflexivity. reflexivity.
Qed.

Lemma failed_reconnect_keeps_closed_handle_witness :
  status (state (fst (connect_resume 1 (Rejected (js "Error: refused"))
                        (fst (connect_begin (js "wss://b.example") subscribedWorld)))))
  = disconnected
  /\ relay (state (fst (connect_resume 1 (Rejected (js "Error: refused"))
                         (fst (connect_begin (js "wss://b.example") subscribedWorld)))))
     = Some 0%nat.
Proof.
  destruct (failed_reconnect_keeps_closed_handle subscribedWorld (js "wss://b.example")
              (js "Error: refused") 0%nat
              {| r_url := js "wss://relay.example"; r_phase := Open |}
              eq_refl eq_refl) as (Hs & Hr & _).
  split; assumption.
Defined.

(** ** The log on the page *)



